(** * Voice RAG agent: retrieval, reranking, rewriting, post-processing
      and the realtime coordinator

    A shallow embedding of the pure parts of [rag/retriever.py],
    [rag/reranker.py], [rag/rewrite.py], [postprocess.py], [rag/ingest.py]
    and [app.py], and of the coordinator of [realtime.py], with the
    properties the design document states about them.

    [rag/retriever.py] defines [hybrid_search] twice.  [Retriever] is the
    documented definition of lines 54-95; [RetrieverTail] is the one of
    lines 108-115, which the name is bound to once the module is loaded and
    which the coordinator therefore calls. *)

From Stdlib Require Import ZArith QArith List Ascii String Lia Bool Sorted.
From stdpp Require Import base gmap strings list.
Import ListNotations.

(** ** Python strings

    A Python [str] is a sequence of code points.  The model keeps the code
    points below 256, one [ascii] each; [py] reads a literal. *)

Abbreviation str := (list ascii).

Definition py (s : string) : str := list_ascii_of_string s.

Definition code (c : ascii) : N := N_of_ascii c.

(** [str.isspace] on one code point: TAB..CR, FS..US, SPACE, NEL, NBSP. *)
Definition is_space (c : ascii) : bool :=
  let n := code c in
  ((9 <=? n) && (n <=? 13) || (28 <=? n) && (n <=? 32)
   || (n =? 133) || (n =? 160))%N.

(** [str.lower] on one code point: A..Z and the Latin-1 capitals
    (all of 192..222 but the multiplication sign 215) move up by 32. *)
Definition lower_char (c : ascii) : ascii :=
  let n := code c in
  if ((65 <=? n) && (n <=? 90)
      || (192 <=? n) && (n <=? 222) && negb (n =? 215))%N
  then ascii_of_N (n + 32) else c.

Definition lower (s : str) : str := map lower_char s.

(** [s.startswith(p)] and the substring test [p in s]. *)
Fixpoint startswith (p s : str) : bool :=
  match p, s with
  | [], _ => true
  | _ :: _, [] => false
  | a :: p', b :: s' => if decide (a = b) then startswith p' s' else false
  end.

Fixpoint contains (p s : str) : bool :=
  startswith p s ||
  match s with
  | [] => false
  | _ :: s' => contains p s'
  end.

(** [s.split()]: the maximal runs of non-space characters. *)
Definition starts_word (s : str) : bool :=
  match s with
  | [] => false
  | c :: _ => negb (is_space c)
  end.

Definition cons_char (c : ascii) (ws : list str) : list str :=
  match ws with
  | [] => [[c]]
  | w :: ws' => (c :: w) :: ws'
  end.

Fixpoint split (s : str) : list str :=
  match s with
  | [] => []
  | c :: s' =>
      if is_space c then split s'
      else if starts_word s' then cons_char c (split s')
      else [c] :: split s'
  end.

(** [sep.join(parts)] *)
Fixpoint join (sep : str) (parts : list str) : str :=
  match parts with
  | [] => []
  | [p] => p
  | p :: ps => p ++ sep ++ join sep ps
  end.

(** [l[:k]] with Python's reading of a negative bound. *)
Definition slice_to {A} (k : Z) (l : list A) : list A :=
  if (k <? 0)%Z
  then take (Z.to_nat (Z.max 0 (Z.of_nat (length l) + k))) l
  else take (Z.to_nat k) l.

(** ** Exceptions

    The services the program calls fail by raising; every failure they can
    raise is an ordinary [Exception].  Cancellation of a task is not one of
    them and is delivered by the event loop only (see [Realtime]). *)

Inductive exn := ZeroDivisionError | IndexError | RuntimeError.

Inductive result (A : Type) :=
| Ok (a : A)
| Raise (e : exn).
Arguments Ok {A} a.
Arguments Raise {A} e.

#[global] Instance result_ret : MRet result := fun _ a => Ok a.
#[global] Instance result_bind : MBind result := fun _ _ f m =>
  match m with
  | Ok a => f a
  | Raise e => Raise e
  end.

(** [try: body except Exception: pass], followed by [rest]. *)
Definition try_or {A} (body : result A) (rest : A) : A :=
  match body with
  | Ok a => a
  | Raise _ => rest
  end.

(** ** Sorting

    [sorted(l, key=f)] and [l.sort(key=f)] are stable and ascending in the
    key.  A stable sort has one possible result, which insertion from the
    right computes. *)

Fixpoint insert_by {A} (key : A -> Q) (x : A) (l : list A) : list A :=
  match l with
  | [] => [x]
  | y :: l' =>
      if Qle_bool (key x) (key y) then x :: l else y :: insert_by key x l'
  end.

Definition sorted {A} (key : A -> Q) (l : list A) : list A :=
  foldr (insert_by key) [] l.

(** A scored passage is a [(score, text)] tuple. *)
Abbreviation ScoredPassage := (Q * str)%type.

Definition float_of_nat (n : nat) : Q := inject_Z (Z.of_nat n).

(** [len(qset.intersection(set(d.lower().split())))] *)
Definition overlap (qset : gset str) (d : str) : nat :=
  size (qset ∩ list_to_set (split (lower d))).

(** ** rag/rewrite.py *)

Module Rewrite.

Definition pronouns : list str :=
  map py ["it"; "that"; "this"; "they"; "them"; "second"; "first"]%string.

(** [any(p in query.lower() for p in pronouns)] *)
Definition mentions_pronoun (query : str) : bool :=
  existsb (fun p => contains p (lower query)) pronouns.

Definition rewrite_query (query : str) (history : list str) : str :=
  match last history with
  | None => query                              (* [if not history] *)
  | Some last_ =>
      if mentions_pronoun query
      then query ++ py " (context: " ++ last_ ++ py ")"
      else query
  end.

End Rewrite.

(** ** rag/retriever.py, lines 1-95: the documented [hybrid_search] *)

Module Retriever.

(** The module state: the vector index with its embedder (one service,
    giving the rows [D[0]] and [I[0]] for a query and [k]), the loaded
    passages, and the BM25 class when [rank_bm25] is installed. *)
Record Engine := {
  index_search : option (str -> Z -> result (list Q * list Z));
  docs : list str;
  BM25Okapi : option (list (list str) -> list str -> result (list Q));
}.

Definition vector_results (e : Engine) (hits : list Q * list Z) : list ScoredPassage :=
  omap (fun '(score, idx) =>
          if ((idx <? 0) || (Z.of_nat (length (docs e)) <=? idx))%Z
          then None                                        (* [continue] *)
          else (fun d => ((- score)%Q, d)) <$> docs e !! Z.to_nat idx)
       (zip hits.1 hits.2).

Definition vector_path (e : Engine) (query : str) (k : Z)
    : option (result (list ScoredPassage)) :=
  match index_search e with
  | None => None
  | Some search => Some (hits ← search query k; mret (vector_results e hits))
  end.

(** [enumerate(scores)] *)
Definition enumerate {A} (l : list A) : list (nat * A) :=
  zip (seq 0 (length l)) l.

Definition bm25_path (e : Engine) (query : str) (k : Z)
    : option (result (list ScoredPassage)) :=
  match docs e, BM25Okapi e with
  | _ :: _, Some bm25 =>
      Some (scores ← bm25 (map split (docs e)) (split query);
            let ranked :=
              slice_to k (sorted (fun x => (- x.2)%Q) (enumerate scores)) in
            mapM (fun '(i, s) =>
                    match docs e !! i with
                    | Some d => Ok (s, d)
                    | None => Raise IndexError
                    end) ranked)
  | _, _ => None
  end.

Definition lexical_path (e : Engine) (query : str) (k : Z) : list ScoredPassage :=
  let qset : gset str := list_to_set (split (lower query)) in
  let scored :=
    omap (fun d =>
            let score := overlap qset d in
            if (0 <? score)%nat then Some (float_of_nat score, d) else None)
         (docs e) in
  slice_to k (sorted (fun x => (- x.1)%Q) scored).

(** [attempt s rest]: strategy [s] when it is available and does not
    raise, [rest] otherwise. *)
Definition attempt {A} (s : option (result A)) (rest : A) : A :=
  match s with
  | Some body => try_or body rest
  | None => rest
  end.

Definition hybrid_search (e : Engine) (query : str) (k : Z) : list ScoredPassage :=
  attempt (vector_path e query k)
    (attempt (bm25_path e query k)
       (match docs e with
        | _ :: _ => lexical_path e query k
        | [] => []
        end)).

End Retriever.

(** ** rag/retriever.py, lines 96-115

    The module ends with a block that loads an index of its own and defines
    [hybrid_search] again, at line 108.  That [def] rebinds the name when
    the module is loaded, so this is the [hybrid_search] that
    [from rag.retriever import hybrid_search] gives to [realtime.py]. *)

Module RetrieverTail.

(** The module state of lines 101-106: [model] with [index] (one service,
    from the query and [k] to the row [I[0]] of passage numbers), the array
    [docs], the method [bm25.get_top_n] (on the query tokens, the documents
    and [n]); and the order in which the interpreter lists the elements of
    a set, which the language leaves open. *)
Record Loaded := {
  index_search : str -> Z -> result (list Z);
  docs : list str;
  get_top_n : list str -> list str -> Z -> result (list str);
  set_order : gset str -> list str;
}.

(** [docs[i]] on the array: a negative index counts from the end, and an
    index that is still out of range raises. *)
Definition getitem (docs : list str) (i : Z) : result str :=
  let n := Z.of_nat (length docs) in
  let j := if (i <? 0)%Z then (i + n)%Z else i in
  if ((j <? 0) || (n <=? j))%Z then Raise IndexError
  else match docs !! Z.to_nat j with
       | Some d => Ok d
       | None => Raise IndexError
       end.

Definition hybrid_search (e : Loaded) (query : str) (k : Z)
    : result (list str) :=
  row ← index_search e query k;                              (* [I[0]] *)
  vector_hits ← mapM (getitem (docs e)) row;
  bm25_hits ← get_top_n e (split query) (docs e) k;
  mret (set_order e (list_to_set (vector_hits ++ bm25_hits))).

End RetrieverTail.

(** ** rag/reranker.py *)

Module Reranker.

(** [CrossEncoder] is the scoring model when [sentence_transformers] is
    installed: it maps the [query, candidate] pairs to their scores.  The
    scores are taken to be finite numbers; a NaN, which no order places,
    is not represented. *)
Definition model_path (CrossEncoder : list (str * str) -> result (list Q))
    (query : str) (candidates : list str) (top_k : Z) : result (list ScoredPassage) :=
  let pairs := map (fun c => (query, c)) candidates in
  scores ← CrossEncoder pairs;
  mret (slice_to top_k (sorted (fun x => (- x.1)%Q) (zip scores candidates))).

Definition fallback (query : str) (candidates : list str) (top_k : Z)
    : list ScoredPassage :=
  let qset : gset str := list_to_set (split (lower query)) in
  let scored := map (fun d => (float_of_nat (overlap qset d), d)) candidates in
  slice_to top_k (sorted (fun x => (- x.1)%Q) scored).

Definition rerank (CrossEncoder : option (list (str * str) -> result (list Q)))
    (query : str) (candidates : list str) (top_k : Z) : list ScoredPassage :=
  match candidates with
  | [] => []
  | _ :: _ =>
      match CrossEncoder with
      | Some model =>
          try_or (model_path model query candidates top_k)
                 (fallback query candidates top_k)
      | None => fallback query candidates top_k
      end
  end.

End Reranker.

(** ** postprocess.py *)

Module Postprocess.

Definition space : ascii := " "%char.

Definition starts_space (s : str) : bool :=
  match s with
  | [] => false
  | c :: _ => is_space c
  end.

(** [re.sub(r"\s+", " ", text)]: each maximal run of white space becomes
    one space, written when the run ends. *)
Fixpoint collapse_ws (text : str) : str :=
  match text with
  | [] => []
  | c :: t =>
      if is_space c
      then if starts_space t then collapse_ws t else space :: collapse_ws t
      else c :: collapse_ws t
  end.

Fixpoint lstrip (s : str) : str :=
  match s with
  | [] => []
  | c :: s' => if is_space c then lstrip s' else s
  end.

Definition strip (s : str) : str := rev (lstrip (rev (lstrip s))).

(** The character class [[.!?]]. *)
Definition is_terminal (c : ascii) : bool :=
  bool_decide (c = "."%char) || bool_decide (c = "!"%char)
  || bool_decide (c = "?"%char).

(** [re.split(r'(?<=[.!?]) +', text)].  The scanner is either inside a
    piece, knowing whether the previous character is in [[.!?]], or inside
    a separator, which swallows every following space.  The head of the
    result is the rest of the piece being read. *)
Inductive scan := InText (after_terminal : bool) | InSep.

Fixpoint re_split (st : scan) (text : str) : list str :=
  match text with
  | [] => [[]]
  | c :: t =>
      let keep := cons_char c (re_split (InText (is_terminal c)) t) in
      match st with
      | InSep => if bool_decide (c = space) then re_split InSep t else keep
      | InText after_terminal =>
          if after_terminal && bool_decide (c = space)
          then [] :: re_split InSep t
          else keep
      end
  end.

(** The body of the loop over the parts. *)
Definition shorten (max_sentence_words : Z) (p : str) : str :=
  let words := split p in
  if (max_sentence_words <? Z.of_nat (length words))%Z
  then join [space] (slice_to max_sentence_words words) ++ py "..."
  else p.

Definition postprocess_for_voice (text : str) (max_sentence_words : Z) : str :=
  let text := strip (collapse_ws text) in
  let parts := re_split (InText false) text in
  join [space] (map (shorten max_sentence_words) parts).

End Postprocess.

(** ** realtime.py *)

Module Realtime.

(** *** MetricsCollector *)

Record MetricsCollector := {
  runs : Z;
  total_retrieval_time : Q;
  total_time : Q;
}.

(** The two totals are floats.  The model adds and divides them as exact
    numbers and so says nothing on their rounding; the run count is an
    [int]. *)
Definition add (m : MetricsCollector) (retrieval_time total : Q)
    : MetricsCollector :=
  {| runs := runs m + 1;
     total_retrieval_time := total_retrieval_time m + retrieval_time;
     total_time := total_time m + total |}.

(** The values of the summary mapping. *)
Inductive pyval := PyInt (n : Z) | PyFloat (x : Q).

(** [x / n] on a float and an int. *)
Definition truediv (x : Q) (n : Z) : result Q :=
  if (n =? 0)%Z then Raise ZeroDivisionError else Ok (x / inject_Z n)%Q.

Definition summary (m : MetricsCollector) : result (gmap string pyval) :=
  if (runs m =? 0)%Z then Ok ∅
  else
    avg_retrieval_time ← truediv (total_retrieval_time m) (runs m);
    avg_total_time ← truediv (total_time m) (runs m);
    mret (<["runs"%string := PyInt (runs m)]>
          (<["avg_retrieval_time"%string := PyFloat avg_retrieval_time]>
           (<["avg_total_time"%string := PyFloat avg_total_time]> ∅))).

(** *** The collaborators of the coordinator *)

Record Env := {
  (** [GROQ_CLIENT.chat.completions.create], from the user text to the
      content of the first choice; [None] when no client is configured *)
  GROQ_CLIENT : option (str -> result str);
  tts_speak : str -> result unit;
  (** what [rag.retriever] holds once it is loaded *)
  retriever : RetrieverTail.Loaded;
  CrossEncoder : option (list (str * str) -> result (list Q));
}.

Definition unavailable : str :=
  py "[LLM unavailable - set GROQ_API_KEY and install Groq SDK]".

(** app.py *)
Definition get_llm_response (env : Env) (user_text : str) : result str :=
  match GROQ_CLIENT env with
  | None => Ok unavailable
  | Some create => create user_text
  end.

(** [s.split(sep)[0]] for a one-character separator. *)
Fixpoint first_field (sep : ascii) (s : str) : str :=
  match s with
  | [] => []
  | c :: s' => if decide (c = sep) then [] else c :: first_field sep s'
  end.

Definition nl : str := [ascii_of_nat 10].

Definition filler_prompt (partial : str) : str :=
  py "You are a helpful assistant. Give a very short acknowledgement for: "
  ++ partial.

Definition final_prompt (contexts : list str) (partial : str) : str :=
  let ctx_text := join (nl ++ nl) contexts in
  py "Context:" ++ nl ++ ctx_text ++ nl ++ nl ++ py "Question: " ++ partial.

(** [c[1]] on a string: its second character. *)
Definition item1 (c : str) : result str :=
  match c !! 1%nat with
  | Some ch => Ok [ch]
  | None => Raise IndexError
  end.

(** [hybrid_search] is the definition the module [rag.retriever] ends
    with.  It returns texts, so [c[1]] is the second character of a text;
    nothing here catches what the search or the indexing raise. *)
Definition _retrieve_and_rerank (env : Env) (history : list str) (query : str)
    : result (list str) :=
  let q2 := Rewrite.rewrite_query query history in
  candidates ← RetrieverTail.hybrid_search (retriever env) q2 8;
  texts ← mapM item1 candidates;
  let reranked := Reranker.rerank (CrossEncoder env) q2 texts 3 in
  mret (map snd reranked).

(** *** Tasks

    A task running [_run_pipeline] is suspended at one of its [await]s, or
    has ended.  Each suspended stage carries the local variables that are
    live there. *)
Inductive stage :=
| Created                                   (* scheduled, not started *)
| AwaitFiller (start_ts : Q)                               (* line 100 *)
| AwaitRetrieval (start_ts : Q) (filler_text : str)        (* line 113 *)
| AwaitFinal (start_ts retrieval_time : Q) (filler_text : str)
             (contexts : list str)                         (* line 122 *)
| AwaitFillerPlay (start_ts retrieval_time : Q) (filler_text : str)
                  (final_answer : str)                     (* line 127 *)
| AwaitSpeak (start_ts retrieval_time : Q) (final_answer : str) (* line 132 *)
| Finished                                  (* ran to its last line *)
| Returned                                  (* [return] at line 115 *)
| Failed (e : exn)                          (* ended by an exception *)
| Cancelled.                                (* ended by CancelledError *)

Record Task := {
  partial : str;
  at_ : stage;
  must_cancel : bool;      (* [cancel()] was called on the pending task *)
}.

Definition done (t : Task) : bool :=
  match at_ t with
  | Finished | Returned | Failed _ | Cancelled => true
  | _ => false
  end.

Definition cancel (t : Task) : Task :=
  {| partial := partial t; at_ := at_ t; must_cancel := true |}.

Record Coordinator := {
  history : list str;
  metrics : MetricsCollector;
  tasks : list Task;               (* every task created, by number *)
  _current_task : option nat;
}.

Definition init : Coordinator :=
  {| history := [];
     metrics := {| runs := 0; total_retrieval_time := 0; total_time := 0 |};
     tasks := [];
     _current_task := None |}.

Definition handle_partial (c : Coordinator) (partial_transcript : str)
    : Coordinator :=
  let tasks' :=
    match _current_task c with
    | Some id =>
        match tasks c !! id with
        | Some t => if done t then tasks c else <[id := cancel t]> (tasks c)
        | None => tasks c
        end
    | None => tasks c
    end in
  {| history := history c;
     metrics := metrics c;
     tasks := tasks' ++ [{| partial := partial_transcript; at_ := Created;
                            must_cancel := false |}];
     _current_task := Some (length tasks') |}.

(** What a step of [_run_pipeline] does to the coordinator. *)
Inductive effect :=
| Goto (s : stage)
| Complete (retrieval_time total : Q) (final_answer : str).

(** The task resumes at its [await] with CancelledError thrown in. *)
Definition resume_cancelled (s : stage) : stage :=
  match s with
  | AwaitRetrieval _ _ => Returned        (* [except CancelledError: return] *)
  | Finished | Returned | Failed _ => s
  | _ => Cancelled
  end.

(** The task resumes with the outcome of what it awaited; [now] is the
    reading of [time.time()] in this step. *)
Definition resume (env : Env) (history : list str) (partial : str) (now : Q)
    (s : stage) : effect :=
  match s with
  | Created => Goto (AwaitFiller now)
  | AwaitFiller start_ts =>
      match get_llm_response env (filler_prompt partial) with
      | Ok filler_text =>
          Goto (AwaitRetrieval start_ts
                  (first_field "."%char filler_text ++ py "."))
      | Raise e => Goto (Failed e)
      end
  | AwaitRetrieval start_ts filler_text =>
      (* [except asyncio.CancelledError] catches nothing else *)
      match _retrieve_and_rerank env history partial with
      | Ok contexts =>
          Goto (AwaitFinal start_ts (now - start_ts) filler_text contexts)
      | Raise e => Goto (Failed e)
      end
  | AwaitFinal start_ts retrieval_time filler_text contexts =>
      match get_llm_response env (final_prompt contexts partial) with
      | Ok final_answer =>
          Goto (AwaitFillerPlay start_ts retrieval_time filler_text
                  (Postprocess.postprocess_for_voice final_answer 18))
      | Raise e => Goto (Failed e)
      end
  | AwaitFillerPlay start_ts retrieval_time filler_text final_answer =>
      (* [try: await filler_play except Exception: pass] *)
      try_or (_ ← tts_speak env filler_text;
              mret (Goto (AwaitSpeak start_ts retrieval_time final_answer)))
             (Goto (AwaitSpeak start_ts retrieval_time final_answer))
  | AwaitSpeak start_ts retrieval_time final_answer =>
      match tts_speak env final_answer with
      | Ok _ => Complete retrieval_time (now - start_ts) final_answer
      | Raise e => Goto (Failed e)
      end
  | Finished | Returned | Failed _ | Cancelled => Goto s
  end.

Definition set_stage (t : Task) (s : stage) : Task :=
  {| partial := partial t; at_ := s; must_cancel := must_cancel t |}.

(** One turn of the event loop for task [id]. *)
Definition run_task (env : Env) (c : Coordinator) (id : nat) (now : Q)
    : Coordinator :=
  match tasks c !! id with
  | None => c
  | Some t =>
      if must_cancel t then
        {| history := history c; metrics := metrics c;
           tasks := <[id := set_stage t (resume_cancelled (at_ t))]> (tasks c);
           _current_task := _current_task c |}
      else
        match resume env (history c) (partial t) now (at_ t) with
        | Goto s =>
            {| history := history c; metrics := metrics c;
               tasks := <[id := set_stage t s]> (tasks c);
               _current_task := _current_task c |}
        | Complete retrieval_time total final_answer =>
            {| history := history c ++ [partial t] ++ [final_answer];
               metrics := add (metrics c) retrieval_time total;
               tasks := <[id := set_stage t Finished]> (tasks c);
               _current_task := _current_task c |}
        end
  end.

(** The schedule: transcripts arriving and tasks being resumed. *)
Inductive event :=
| HandlePartial (partial_transcript : str)
| Resume (id : nat) (now : Q).

Definition step (env : Env) (c : Coordinator) (ev : event) : Coordinator :=
  match ev with
  | HandlePartial p => handle_partial c p
  | Resume id now => run_task env c id now
  end.

Definition run (env : Env) (c : Coordinator) (evs : list event) : Coordinator :=
  foldl (step env) c evs.

End Realtime.

(** ** rag/ingest.py *)

Module Ingest.

(** [l[a:b]], with Python's reading of negative and oversized bounds. *)
Definition slice {A} (a b : Z) (l : list A) : list A :=
  let n := Z.of_nat (length l) in
  let clamp (x : Z) := if (x <? 0)%Z then Z.max 0 (x + n) else Z.min x n in
  take (Z.to_nat (clamp b - clamp a)) (drop (Z.to_nat (clamp a)) l).

(** The [while] loop of [chunk_text], from index [i] on.  The loop need
    not end, so the model counts its iterations down from [fuel] and
    answers [None] when they run out. *)
Fixpoint chunk_loop (fuel : nat) (words : list str) (max_words stride : Z)
    (i : Z) : option (list str) :=
  match fuel with
  | O => None
  | S fuel' =>
      let n := Z.of_nat (length words) in
      if (i <? n)%Z then
        let chunk := slice i (i + max_words) words in
        if (n <=? i + max_words)%Z
        then Some [join [" "%char] chunk]                       (* [break] *)
        else cons (join [" "%char] chunk)
               <$> chunk_loop fuel' words max_words stride
                     (i + (max_words - stride))
      else Some []
  end.

Definition chunk_text (fuel : nat) (text : str) (max_words stride : Z)
    : option (list str) :=
  chunk_loop fuel (split text) max_words stride 0.

End Ingest.

(** ** app.py *)

Module App.

(** [s.replace(old, new, 1)] for a non-empty [old]. *)
Fixpoint replace_first (old new s : str) : str :=
  if startswith old s then new ++ drop (length old) s
  else match s with
       | [] => []
       | c :: s' => c :: replace_first old new s'
       end.

(** The loop over the lines of SYSTEM_PROMPT.txt; [None] when no line
    answers. *)
Fixpoint scan_lines (lines : list str) : option str :=
  match lines with
  | [] => None
  | line :: rest =>
      let s := Postprocess.strip line in
      match s with
      | [] => scan_lines rest                              (* [continue] *)
      | _ :: _ =>
          if startswith (py "you are") (lower s)
          then Some (Postprocess.strip
                       (replace_first (py "You are") (py "I am") s))
          else if contains (py "voice ai") (lower s)
                  || contains (py "voice-first") (lower s)
          then Some s
          else scan_lines rest
      end
  end.

(** [file] is the list of the lines of the prompt file, [None] when the
    file is missing or cannot be read.  [default_] stands for the fixed
    default statement, whose dash is a code point above 255. *)
Definition get_identity_statement (default_ : str) (file : option (list str))
    : str :=
  match file with
  | None => default_
  | Some lines =>
      match scan_lines lines with
      | Some statement => statement
      | None => default_
      end
  end.

End App.

(** * The vocabulary of the properties *)

(** [p] occurs in [s] as a contiguous block. *)
Definition substring (p s : str) : Prop := exists a b, s = a ++ p ++ b.

(** One of the listed words occurs in the lowercased query. *)
Definition has_pronoun (query : str) : Prop :=
  exists p, p ∈ Rewrite.pronouns /\ substring p (lower query).

(** Best first: no score is followed by a larger one. *)
Definition non_increasing (scores : list Q) : Prop :=
  forall i a b, scores !! i = Some a -> scores !! S i = Some b -> (b <= a)%Q.

(** The order [sorted] sorts by. *)
Definition key_le {A} (key : A -> Q) (x y : A) : Prop := (key x <= key y)%Q.

(** A hit of the index service names a loaded passage. *)
Definition in_range (e : Retriever.Engine) (hit : Q * Z) : Prop :=
  (0 <= hit.2 < Z.of_nat (length (Retriever.docs e)))%Z.

(** An index over two passages as [rag/ingest.py] builds it, with
    [faiss.IndexFlatIP]: a search answers with the inner products, the
    largest first, and the numbers of their passages. *)
Definition ip_engine : Retriever.Engine :=
  {| Retriever.index_search :=
       Some (fun _ k => Ok (slice_to k [9 # 10; 1 # 2]%Q, slice_to k [0; 1]%Z));
     Retriever.docs := [py "returns are free"; py "shipping takes a week"];
     Retriever.BM25Okapi := None |}.

(** What [rag.retriever] holds once it is loaded, over the same two
    passages.  The index answers a search for [k] neighbours with the
    numbers of the two passages and fills the rest of the row with [-1], as
    faiss does when it holds fewer than [k] vectors; BM25 ranks the second
    passage first. *)
Definition two_passages : RetrieverTail.Loaded :=
  {| RetrieverTail.index_search := fun _ k =>
       Ok (take (Z.to_nat k)
             ([0; 1] ++ replicate (Z.to_nat k - 2) (-1))%Z);
     RetrieverTail.docs :=
       [py "returns are free"; py "shipping takes a week"];
     RetrieverTail.get_top_n := fun _ documents n =>
       Ok (slice_to n (rev documents));
     RetrieverTail.set_order := elements |}.

(** The index of a passage of the array [docs], counted from either end. *)
Definition in_bounds (docs : list str) (i : Z) : Prop :=
  (- Z.of_nat (length docs) <= i < Z.of_nat (length docs))%Z.

(** The interpreter lists each element of a set once. *)
Definition lists_sets (e : RetrieverTail.Loaded) : Prop :=
  forall s : gset str, RetrieverTail.set_order e s ≡ₚ elements s.

(** The stage of task [id], when there is one. *)
Definition stage_of (c : Realtime.Coordinator) (id : nat)
    : option Realtime.stage :=
  Realtime.at_ <$> Realtime.tasks c !! id.

(** The turn of task [id] at [now] is the one in which its Run reaches the
    end of [_run_pipeline]. *)
Definition completes (env : Realtime.Env) (c : Realtime.Coordinator)
    (id : nat) (now : Q) : Prop :=
  stage_of c id <> Some Realtime.Finished
  /\ stage_of (Realtime.run_task env c id now) id = Some Realtime.Finished.

(** Collaborators for the scenarios: no generator client and no scoring
    model configured, two passages loaded; and the same with a generator
    whose call raises. *)
Definition bare_env : Realtime.Env :=
  {| Realtime.GROQ_CLIENT := None;
     Realtime.tts_speak := fun _ => Ok ();
     Realtime.retriever := two_passages;
     Realtime.CrossEncoder := None |}.

Definition failing_llm_env : Realtime.Env :=
  {| Realtime.GROQ_CLIENT := Some (fun _ => Raise RuntimeError);
     Realtime.tts_speak := fun _ => Ok ();
     Realtime.retriever := two_passages;
     Realtime.CrossEncoder := None |}.



(** The scenario of the design document, up to the last [await] of the
    Run: one transcript, then five turns of its task. *)
Definition returns_policy : str := py "tell me about returns policy".

Definition before_last_turn : Realtime.Coordinator :=
  Realtime.run bare_env Realtime.init
    [Realtime.HandlePartial returns_policy;
     Realtime.Resume 0 1; Realtime.Resume 0 2; Realtime.Resume 0 3;
     Realtime.Resume 0 4; Realtime.Resume 0 5].


(** *** Words and sentences

    The post-processing is followed on the list of words of the text.  A
    word is a non-empty run of characters that are not white space. *)
Definition is_word (w : str) : Prop :=
  w <> [] /\ Forall (fun c => is_space c = false) w.

Definition ends_space (s : str) : bool :=
  match last s with
  | Some c => is_space c
  | None => false
  end.

Definition ends_terminal (w : str) : bool :=
  match last w with
  | Some c => Postprocess.is_terminal c
  | None => false
  end.

Definition cons_word (w : str) (gs : list (list str)) : list (list str) :=
  match gs with
  | [] => [[w]]
  | g :: gs' => (w :: g) :: gs'
  end.

(** The sentences of a list of words: a sentence ends with a word whose
    last character is in [[.!?]], when another word follows. *)
Fixpoint groups (ws : list str) : list (list str) :=
  match ws with
  | [] => [[]]
  | w :: ws' =>
      match ws' with
      | [] => [[w]]
      | _ :: _ =>
          if ends_terminal w then [w] :: groups ws'
          else cons_word w (groups ws')
      end
  end.

(** The ellipsis goes onto the last word kept, or stands alone. *)
Fixpoint add_ellipsis (ws : list str) : list str :=
  match ws with
  | [] => [py "..."]
  | w :: ws' =>
      match ws' with
      | [] => [w ++ py "..."]
      | _ :: _ => w :: add_ellipsis ws'
      end
  end.

Definition shorten_group (n : nat) (g : list str) : list str :=
  if (n <? length g)%nat then add_ellipsis (take n g) else g.

(** A sentence: not empty, no word but the last ends in [[.!?]], and the
    last does unless the sentence is the final one. *)
Fixpoint group_ok (final : bool) (g : list str) : Prop :=
  match g with
  | [] => False
  | w :: g' =>
      match g' with
      | [] => final = true \/ ends_terminal w = true
      | _ :: _ => ends_terminal w = false /\ group_ok final g'
      end
  end.

Fixpoint well_grouped (gs : list (list str)) : Prop :=
  match gs with
  | [] => False
  | g :: gs' =>
      match gs' with
      | [] => group_ok true g
      | _ :: _ => group_ok false g /\ well_grouped gs'
      end
  end.

(** [w] goes in front of the piece being read. *)
Definition prepend (w : str) (pieces : list str) : list str :=
  match pieces with
  | [] => [w]
  | p :: ps => (w ++ p) :: ps
  end.

(** *** Schedules *)

(** Task [id] is a Run on transcript [p] that nobody has cancelled,
    suspended at stage [s]. *)
Definition at_stage (c : Realtime.Coordinator) (id : nat) (p : str)
    (s : Realtime.stage) : Prop :=
  Realtime.tasks c !! id
  = Some {| Realtime.partial := p; Realtime.at_ := s;
            Realtime.must_cancel := false |}.

(** The [await]s a Run at a given stage still has in front of it, its
    start counted as one. *)
Definition turns_left (s : Realtime.stage) : nat :=
  match s with
  | Realtime.Created => 6
  | Realtime.AwaitFiller _ => 5
  | Realtime.AwaitRetrieval _ _ => 4
  | Realtime.AwaitFinal _ _ _ _ => 3
  | Realtime.AwaitFillerPlay _ _ _ _ => 2
  | Realtime.AwaitSpeak _ _ _ => 1
  | _ => 0
  end.

Definition is_turn_of (id : nat) (ev : Realtime.event) : bool :=
  match ev with
  | Realtime.Resume j _ => bool_decide (j = id)
  | Realtime.HandlePartial _ => false
  end.

(** How many times a schedule resumes task [id]. *)
Definition turns_of (id : nat) (evs : list Realtime.event) : nat :=
  length (filter (fun ev => is_turn_of id ev = true) evs).

(** A task that is neither done nor asked to cancel. *)
Definition live (t : Realtime.Task) : Prop :=
  Realtime.done t = false /\ Realtime.must_cancel t = false.

(** *** Chunks *)

(** The [max_words] words of [words] from index [start] on, joined. *)
Definition window (words : list str) (max_words start : Z) : str :=
  join [" "%char] (take (Z.to_nat max_words) (drop (Z.to_nat start) words)).

(** *** The prompt file *)

(** A line of the prompt file that [get_identity_statement] passes over. *)
Definition silent (line : str) : Prop := App.scan_lines [line] = None.

(** * Properties *)

(** ** Strings *)


Lemma startswith_spec (p s : str) :
  startswith p s = true <-> exists b, s = p ++ b.
Proof.
  revert s; induction p as [|a p IH]; intros s; simpl.
  - split; [intros _; by exists s | done].
  - destruct s as [|b s]; [split; [done | intros [? ?]; done]|].
    destruct (decide (a = b)) as [->|Hne].
    + rewrite IH. split; intros [r Hr]; exists r; [by rewrite Hr | by inversion Hr].
    + split; [done | intros [r Hr]; inversion Hr; done].
Qed.

Lemma contains_spec (p s : str) : contains p s = true <-> substring p s.
Proof.
  split.
  - induction s as [|c s IH]; simpl; rewrite orb_true_iff.
    + intros [H|H]; [|done]. apply startswith_spec in H as [b ->]. by exists [], b.
    + intros [H|H].
      * apply startswith_spec in H as [b ->]. by exists [], b.
      * destruct (IH H) as (a & b & ->). by exists (c :: a), b.
  - intros (a & b & ->). induction a as [|c a IH]; simpl.
    + destruct (p ++ b) eqn:E; simpl; rewrite orb_true_iff; left;
        apply startswith_spec; exists b; done.
    + rewrite IH. apply orb_true_r.
Qed.

Lemma substring_app_l (p s t : str) : substring p s -> substring p (s ++ t).
Proof.
  intros (a & b & ->). exists a, (b ++ t). by rewrite <- !app_assoc.
Qed.

Lemma substring_middle (a p b : str) : substring p (a ++ p ++ b).
Proof. by exists a, b. Qed.

(** ** The query rewriter *)

Section RewriteFacts.
Import Rewrite.


Lemma mentions_pronoun_spec (query : str) :
  mentions_pronoun query = true <-> has_pronoun query.
Proof.
  unfold mentions_pronoun, has_pronoun. rewrite existsb_exists.
  split; intros (p & Hp & Hc); exists p.
  - split; [by apply list_elem_of_In | by apply contains_spec].
  - split; [by apply list_elem_of_In | by apply contains_spec].
Qed.

Lemma rewrite_query_empty (query : str) : rewrite_query query [] = query.
Proof. reflexivity. Qed.

Lemma rewrite_query_hit (query : str) (history : list str) (last_ : str) :
  last history = Some last_ -> has_pronoun query ->
  rewrite_query query history = query ++ py " (context: " ++ last_ ++ py ")".
Proof.
  intros Hl Hp. unfold rewrite_query. rewrite Hl.
  apply mentions_pronoun_spec in Hp. by rewrite Hp.
Qed.

Lemma rewrite_query_miss (query : str) (history : list str) :
  ~ has_pronoun query -> rewrite_query query history = query.
Proof.
  intros Hp. unfold rewrite_query. destruct (last history); [|done].
  destruct (mentions_pronoun query) eqn:E; [|done].
  by apply mentions_pronoun_spec in E.
Qed.

(** C7: [rewrite_query] returns the query unchanged on an empty history;
    on a non-empty history, a query containing one of it, that, this,
    they, them, second, first comes back with a parenthetical context
    marker built from the most recent entry appended, so that the result
    contains both the query and that entry; any other query comes back
    unchanged. *)
Theorem rewrite_query_contract (query : str) (history : list str) :
  (history = [] -> rewrite_query query history = query)
  /\ (forall older last_, history = older ++ [last_] -> has_pronoun query ->
        rewrite_query query history
          = query ++ py " (context: " ++ last_ ++ py ")"
        /\ substring query (rewrite_query query history)
        /\ substring last_ (rewrite_query query history))
  /\ (~ has_pronoun query -> rewrite_query query history = query).
Proof.
  split; [by intros ->|]. split; [|apply rewrite_query_miss].
  intros older last_ -> Hp.
  rewrite (rewrite_query_hit query _ last_); [|by rewrite last_snoc|done].
  split; [done|]. split.
  - by exists [], (py " (context: " ++ last_ ++ py ")").
  - exists (query ++ py " (context: "), (py ")"). by rewrite <- !app_assoc.
Qed.

Lemma rewrite_query_contract_witness :
  Rewrite.rewrite_query (py "what about it?") [py "I bought a car"]
    = py "what about it? (context: I bought a car)"
  /\ Rewrite.rewrite_query (py "hello") [] = py "hello".
Proof.
  split.
  - pose proof (rewrite_query_contract (py "what about it?")
                  [py "I bought a car"]) as (_ & H & _).
    apply (H [] (py "I bought a car") eq_refl).
    exists (py "it"). split.
    + unfold pronouns. simpl. left.
    + by exists (py "what about "), (py "?").
  - pose proof (rewrite_query_contract (py "hello") []) as (H & _).
    exact (H eq_refl).
Defined.

(** C10: the pronoun test is a case-insensitive substring test, not a word
    match.  On a non-empty history, a query whose lowercased form has one
    of the seven words anywhere inside it, between any characters at all,
    is rewritten to exactly the query followed by " (context: ", the last
    history entry and ")"; a query whose lowercased form contains none of
    them is returned unchanged. *)
Theorem rewrite_query_substring_test
    (query : str) (history : list str) (last_ : str) :
  last history = Some last_ ->
  (forall p before after, p ∈ pronouns ->
     lower query = before ++ p ++ after ->
     rewrite_query query history
       = query ++ py " (context: " ++ last_ ++ py ")")
  /\ ((forall p, p ∈ pronouns -> ~ substring p (lower query)) ->
      rewrite_query query history = query).
Proof.
  intros Hl. split.
  - intros p before after Hp Hq. apply rewrite_query_hit; [done|].
    exists p. split; [done|]. by exists before, after.
  - intros Hnone. apply rewrite_query_miss. intros (p & Hp & Hs).
    by apply (Hnone p).
Qed.

Lemma rewrite_query_substring_test_witness :
  Rewrite.rewrite_query (py "come WITH me") [py "hi"; py "the blue bike"]
    = py "come WITH me (context: the blue bike)"
  /\ Rewrite.rewrite_query (py "Firstly, why?") [py "hi"; py "the blue bike"]
    = py "Firstly, why? (context: the blue bike)"
  /\ Rewrite.rewrite_query (py "how are you") [py "hi"; py "the blue bike"]
    = py "how are you".
Proof.
  pose proof (rewrite_query_substring_test (py "come WITH me")
                [py "hi"; py "the blue bike"] (py "the blue bike") eq_refl)
    as [H1 _].
  pose proof (rewrite_query_substring_test (py "Firstly, why?")
                [py "hi"; py "the blue bike"] (py "the blue bike") eq_refl)
    as [H2 _].
  pose proof (rewrite_query_substring_test (py "how are you")
                [py "hi"; py "the blue bike"] (py "the blue bike") eq_refl)
    as [_ H3].
  split; [|split].
  - apply (H1 (py "it") (py "come w") (py "h me")); [|reflexivity].
    unfold pronouns; simpl; left.
  - apply (H2 (py "first") [] (py "ly, why?")); [|reflexivity].
    unfold pronouns; simpl; do 6 right; left.
  - apply H3. intros p Hp Hs. apply contains_spec in Hs.
    unfold pronouns in Hp. simpl in Hp.
    repeat (apply elem_of_cons in Hp as [->|Hp]; [vm_compute in Hs; discriminate|]).
    by apply elem_of_nil in Hp.
Defined.

End RewriteFacts.

(** ** The metrics accumulator *)

Section MetricsFacts.
Import Realtime.

Lemma truediv_nonzero (x : Q) (n : Z) :
  n <> 0%Z -> truediv x n = Ok (x / inject_Z n)%Q.
Proof. intros Hn. unfold truediv. by destruct (Z.eqb_spec n 0). Qed.

(** C9: [summary] on a collector with no runs returns the empty mapping,
    and on no collector at all does it end in a division by zero: the two
    divisions are only reached with a non-zero run count. *)
Theorem summary_no_division_by_zero (m : MetricsCollector) :
  (runs m = 0%Z -> summary m = Ok ∅)
  /\ (runs m <> 0%Z ->
      summary m = Ok (<["runs"%string := PyInt (runs m)]>
        (<["avg_retrieval_time"%string :=
             PyFloat (total_retrieval_time m / inject_Z (runs m))]>
         (<["avg_total_time"%string :=
              PyFloat (total_time m / inject_Z (runs m))]> ∅))))
  /\ summary m <> Raise ZeroDivisionError.
Proof.
  unfold summary. destruct (Z.eqb_spec (runs m) 0) as [H0|Hn].
  - split; [done|]. split; [done|]. discriminate.
  - rewrite !truediv_nonzero by done. simpl.
    split; [done|]. split; [done|]. discriminate.
Qed.

Lemma summary_no_division_by_zero_witness :
  summary (metrics init) = Ok ∅
  /\ summary (add (metrics init) 2 5) <> Raise ZeroDivisionError.
Proof.
  split.
  - by apply (summary_no_division_by_zero (metrics init)).
  - apply (summary_no_division_by_zero (add (metrics init) 2 5)).
Defined.

End MetricsFacts.

(** ** Sorting and slicing *)


Section SortFacts.
Context {A : Type} (key : A -> Q).


Lemma insert_by_Permutation (x : A) (l : list A) :
  insert_by key x l ≡ₚ x :: l.
Proof.
  induction l as [|y l IH]; simpl; [done|].
  destruct (Qle_bool (key x) (key y)); [done|].
  rewrite IH. apply Permutation_swap.
Qed.

Lemma sorted_Permutation (l : list A) : sorted key l ≡ₚ l.
Proof.
  induction l as [|x l IH]; simpl; [done|].
  unfold sorted in *; simpl. by rewrite insert_by_Permutation, IH.
Qed.

Lemma sorted_length (l : list A) : length (sorted key l) = length l.
Proof. by rewrite sorted_Permutation. Qed.

Lemma insert_by_HdRel (x y : A) (l : list A) :
  key_le key y x -> HdRel (key_le key) y l ->
  HdRel (key_le key) y (insert_by key x l).
Proof.
  intros Hyx Hl. destruct l as [|z l]; simpl; [by constructor|].
  destruct (Qle_bool (key x) (key z)); [by constructor|].
  constructor. by inversion Hl.
Qed.

Lemma insert_by_Sorted (x : A) (l : list A) :
  Sorted (key_le key) l -> Sorted (key_le key) (insert_by key x l).
Proof.
  induction 1 as [|y l Hl IH Hhd]; simpl; [by repeat constructor|].
  destruct (Qle_bool (key x) (key y)) eqn:E.
  - apply Qle_bool_iff in E. constructor; [by constructor|by constructor].
  - constructor; [done|]. apply insert_by_HdRel; [|done].
    unfold key_le. destruct (Qlt_le_dec (key y) (key x)) as [Hlt|Hle].
    + by apply Qlt_le_weak.
    + apply Qle_bool_iff in Hle. congruence.
Qed.

Lemma sorted_Sorted (l : list A) : Sorted (key_le key) (sorted key l).
Proof.
  induction l as [|x l IH]; [constructor|].
  unfold sorted in *; simpl. by apply insert_by_Sorted.
Qed.

Lemma Sorted_take (n : nat) (l : list A) :
  Sorted (key_le key) l -> Sorted (key_le key) (take n l).
Proof.
  intros Hl; revert n. induction Hl as [|x l Hl IH Hhd]; intros [|n]; simpl;
    try constructor; [apply IH|].
  destruct Hhd; destruct n; simpl; by constructor.
Qed.

Lemma Sorted_slice_to (k : Z) (l : list A) :
  Sorted (key_le key) l -> Sorted (key_le key) (slice_to k l).
Proof. intros Hl. unfold slice_to. destruct (k <? 0)%Z; by apply Sorted_take. Qed.

(** Stability: the elements with any one key keep their order. *)
Lemma insert_by_filter (c : Q) (x : A) (l : list A) :
  filter (fun y => Qeq_bool (key y) c = true) (insert_by key x l)
  = filter (fun y => Qeq_bool (key y) c = true) (x :: l).
Proof.
  induction l as [|y l IH]; simpl; [done|].
  destruct (Qle_bool (key x) (key y)) eqn:E; [done|].
  rewrite filter_cons, IH, !filter_cons.
  destruct (decide (Qeq_bool (key y) c = true)) as [Hy|Hy];
    destruct (decide (Qeq_bool (key x) c = true)) as [Hx|Hx]; try done.
  exfalso. apply Qeq_bool_iff in Hx, Hy.
  assert (Qle_bool (key x) (key y) = true); [|congruence].
  apply Qle_bool_iff. rewrite Hx, Hy. apply Qle_refl.
Qed.

Lemma sorted_stable (c : Q) (l : list A) :
  filter (fun y => Qeq_bool (key y) c = true) (sorted key l)
  = filter (fun y => Qeq_bool (key y) c = true) l.
Proof.
  induction l as [|x l IH]; [done|].
  unfold sorted in *; simpl. by rewrite insert_by_filter, !filter_cons, IH.
Qed.

End SortFacts.

Lemma slice_to_length {A} (k : Z) (l : list A) :
  (0 <= k)%Z -> (Z.of_nat (length (slice_to k l)) <= k)%Z.
Proof.
  intros Hk. unfold slice_to. destruct (Z.ltb_spec k 0); [lia|].
  rewrite length_take. lia.
Qed.

Lemma slice_to_nonneg {A} (k : Z) (l : list A) :
  (0 <= k)%Z -> slice_to k l = take (Z.to_nat k) l.
Proof. intros Hk. unfold slice_to. destruct (Z.ltb_spec k 0); [lia|done]. Qed.

Lemma Sorted_non_increasing {A} (score : A -> Q) (l : list A) :
  Sorted (key_le (fun x => - score x)%Q) l -> non_increasing (map score l).
Proof.
  induction 1 as [|x l Hl IH Hhd]; intros i a b Ha Hb; [done|].
  destruct i as [|i]; simpl in *.
  - destruct Hhd as [|y l Hxy]; [done|]. simpl in Hb.
    injection Ha as <-. injection Hb as <-.
    unfold key_le in Hxy. by apply Qopp_le_compat in Hxy; rewrite !Qopp_involutive in Hxy.
  - by apply (IH i).
Qed.

Lemma non_increasing_sorted_slice {A} (score : A -> Q) (k : Z) (l : list A) :
  non_increasing
    (map score (slice_to k (sorted (fun x => - score x)%Q l))).
Proof. apply Sorted_non_increasing, Sorted_slice_to, sorted_Sorted. Qed.

(** ** The retrieval engine *)

Section RetrieverFacts.
Import Retriever.

Lemma omap_length_le {A B} (f : A -> option B) (l : list A) :
  length (omap f l) <= length l.
Proof.
  induction l as [|x l IH]; csimpl; [done|]. destruct (f x); csimpl; lia.
Qed.

Lemma mapM_Ok {A B} (f : A -> result B) (l : list A) (r : list B) :
  mapM f l = Ok r -> Forall2 (fun x y => f x = Ok y) l r.
Proof.
  revert r; induction l as [|x l IH]; intros r; simpl.
  - intros [= <-]. constructor.
  - unfold mbind, result_bind. destruct (f x) as [y|] eqn:Ex; [|done].
    destruct (mapM f l) as [r'|]; [|done]. intros [= <-].
    constructor; [done|]. by apply IH.
Qed.

Lemma vector_results_length (e : Engine) (hits : list Q * list Z) :
  length (vector_results e hits) <= length hits.2.
Proof.
  unfold vector_results. etrans; [apply omap_length_le|].
  rewrite length_zip. lia.
Qed.

(** What the vector path returns: the hits that name a loaded passage, in
    the order of the service, each with its distance negated. *)
Lemma vector_results_hits (e : Engine) (hits : list Q * list Z) :
  Forall2 (fun r hit => r.1 = (- hit.1)%Q
                        /\ docs e !! Z.to_nat hit.2 = Some r.2)
          (vector_results e hits)
          (filter (in_range e) (zip hits.1 hits.2)).
Proof.
  unfold vector_results. induction (zip hits.1 hits.2) as [|[d i] l IH]; simpl;
    [constructor|].
  rewrite filter_cons. unfold in_range at 1. simpl.
  destruct (Z.ltb_spec i 0); simpl.
  { case_decide; [lia|done]. }
  destruct (Z.leb_spec (Z.of_nat (length (docs e))) i); simpl.
  { case_decide; [lia|done]. }
  case_decide; [|lia].
  destruct (docs e !! Z.to_nat i) as [t|] eqn:Ed; simpl.
  - constructor; [done|apply IH].
  - apply lookup_ge_None in Ed. lia.
Qed.

Lemma bm25_path_scores (e : Engine) (query : str) (k : Z) (r : list ScoredPassage) :
  bm25_path e query k = Some (Ok r) ->
  exists scores : list Q,
    map fst r
    = map snd (slice_to k (sorted (fun x => (- x.2)%Q) (enumerate scores))).
Proof.
  unfold bm25_path. destruct (docs e) as [|d0 ds] eqn:Ed; [done|].
  destruct (BM25Okapi e) as [bm25|]; [|done]. intros [= H].
  unfold mbind, result_bind in H.
  destruct (bm25 _ _) as [scores|]; [|done]. exists scores.
  apply mapM_Ok in H. induction H as [|[i sc] y l r' Hf _ IH]; [done|].
  simpl. f_equal; [|done]. by destruct ((d0 :: ds) !! i); simplify_eq.
Qed.

Lemma bm25_path_non_increasing (e : Engine) (query : str) (k : Z) r :
  bm25_path e query k = Some (Ok r) -> non_increasing (map fst r).
Proof.
  intros H. apply bm25_path_scores in H as [scores ->].
  apply (non_increasing_sorted_slice snd).
Qed.

Lemma bm25_path_length (e : Engine) (query : str) (k : Z) r :
  (0 <= k)%Z -> bm25_path e query k = Some (Ok r) ->
  (Z.of_nat (length r) <= k)%Z.
Proof.
  intros Hk H. apply bm25_path_scores in H as [scores H].
  apply (f_equal length) in H. rewrite !length_map in H. rewrite H.
  by apply slice_to_length.
Qed.

Lemma lexical_path_non_increasing (e : Engine) (query : str) (k : Z) :
  non_increasing (map fst (lexical_path e query k)).
Proof. apply (non_increasing_sorted_slice fst). Qed.

Lemma lexical_path_length (e : Engine) (query : str) (k : Z) :
  (0 <= k)%Z -> (Z.of_nat (length (lexical_path e query k)) <= k)%Z.
Proof. apply slice_to_length. Qed.

(** The vector path keeps the order of the index service: its scores are
    best first exactly when the service lists its distances smallest
    first. *)
Lemma vector_results_non_increasing (e : Engine) (hits : list Q * list Z) :
  Sorted Qle hits.1 -> non_increasing (map fst (vector_results e hits)).
Proof.
  intros HD.
  assert (Sorted (fun a b : Q * Z => a.1 <= b.1)%Q (zip hits.1 hits.2)) as Hz.
  { destruct hits as [D I]; simpl in *. revert I.
    induction HD as [|d D HD IH Hhd]; intros [|i I]; simpl; try constructor.
    - apply IH.
    - destruct Hhd, I; simpl; by constructor. }
  assert (Sorted (key_le (fun x : ScoredPassage => - x.1)%Q) (vector_results e hits)).
  { unfold vector_results. apply Sorted_StronglySorted in Hz.
    2:{ intros a b c ? ?. by eapply Qle_trans. }
    apply StronglySorted_Sorted.
    induction Hz as [|[d i] l Hl IH Hall]; simpl; [constructor|].
    destruct (_ || _); [done|].
    destruct (docs e !! Z.to_nat i) as [t|]; simpl; [|done].
    constructor; [done|]. clear IH Hl.
    induction l as [|[d' i'] l IH]; simpl; [constructor|].
    inversion Hall as [|? ? Hd Hall']; subst.
    destruct (_ || _); [by apply IH|].
    destruct (docs e !! Z.to_nat i') as [t'|]; simpl; [|by apply IH].
    constructor; [|by apply IH].
    unfold key_le; simpl in *. rewrite !Qopp_involutive. done. }
  by apply Sorted_non_increasing.
Qed.

(** C1, at the index of [rag/ingest.py]: the vector path answers with the
    negated inner products in the order of the service, so the scores it
    returns increase from the first passage to the second. *)
Theorem hybrid_search_vector_scores_increase :
  hybrid_search ip_engine (py "are returns free") 2
    = [((- (9 # 10))%Q, py "returns are free");
       ((- (1 # 2))%Q, py "shipping takes a week")]
  /\ ~ non_increasing
        (map fst (hybrid_search ip_engine (py "are returns free") 2)).
Proof.
  split; [reflexivity|].
  intros H. specialize (H 0%nat _ _ eq_refl eq_refl). vm_compute in H. by apply H.
Qed.

End RetrieverFacts.

(** ** The retrieval engine as loaded: lines 96-115 *)

Section RetrieverTailFacts.
Import RetrieverTail.

Lemma mapM_Raise {A B} (f : A -> result B) (l : list A) (e : exn) :
  mapM f l = Raise e -> exists x, x ∈ l /\ f x = Raise e.
Proof.
  induction l as [|x l IH]; simpl; [done|].
  unfold mbind, result_bind. destruct (f x) as [y|e'] eqn:Ex.
  - destruct (mapM f l) as [r'|e'] eqn:El; [done|]. intros [= ->].
    destruct (IH eq_refl) as (x' & Hin & Hx'). exists x'. split; [by right|done].
  - intros [= ->]. exists x. split; [by left|done].
Qed.

Lemma getitem_Ok (passages : list str) (i : Z) (d : str) :
  getitem passages i = Ok d -> in_bounds passages i /\ d ∈ passages.
Proof.
  unfold getitem, in_bounds. cbv zeta.
  set (n := Z.of_nat (length passages)).
  set (j := if (i <? 0)%Z then (i + n)%Z else i). intros H.
  destruct (Z.ltb_spec j 0) as [Hl|Hl]; [done|].
  destruct (Z.leb_spec n j) as [Hu|Hu]; [done|]. simpl in H.
  destruct (passages !! Z.to_nat j) as [d'|] eqn:Ed; [|done]. injection H as <-.
  split; [|by eapply list_elem_of_lookup_2].
  subst j. destruct (Z.ltb_spec i 0); lia.
Qed.

Lemma getitem_out (passages : list str) (i : Z) :
  ~ in_bounds passages i -> getitem passages i = Raise IndexError.
Proof.
  unfold getitem, in_bounds. cbv zeta.
  set (n := Z.of_nat (length passages)).
  set (j := if (i <? 0)%Z then (i + n)%Z else i). intros Hout.
  destruct (Z.ltb_spec j 0) as [Hl|Hl]; [done|].
  destruct (Z.leb_spec n j) as [Hu|Hu]; [done|]. exfalso. apply Hout.
  subst j. destruct (Z.ltb_spec i 0); lia.
Qed.

Lemma getitem_in (passages : list str) (i : Z) :
  in_bounds passages i -> exists d, getitem passages i = Ok d.
Proof.
  intros Hin. destruct (getitem passages i) as [d|e] eqn:E; [by exists d|].
  exfalso. revert E. unfold getitem, in_bounds in *. cbv zeta.
  set (n := Z.of_nat (length passages)) in *.
  set (j := if (i <? 0)%Z then (i + n)%Z else i).
  assert (0 <= j < n)%Z as Hj by (subst j; destruct (Z.ltb_spec i 0); lia).
  destruct (Z.ltb_spec j 0) as [Hl|Hl]; [lia|].
  destruct (Z.leb_spec n j) as [Hu|Hu]; [lia|]. simpl.
  destruct (passages !! Z.to_nat j) as [d|] eqn:Ed; [done|].
  apply lookup_ge_None in Ed. lia.
Qed.

Lemma getitem_Raise (passages : list str) (i : Z) (e : exn) :
  getitem passages i = Raise e -> e = IndexError.
Proof.
  unfold getitem. destruct (_ || _); [by intros [= <-]|].
  destruct (passages !! _); [done|by intros [= <-]].
Qed.

Lemma mapM_getitem_out (passages : list str) (row : list Z) :
  ~ Forall (in_bounds passages) row ->
  mapM (getitem passages) row = Raise IndexError.
Proof.
  intros Hout. destruct (mapM (getitem passages) row) as [r|e] eqn:E.
  - exfalso. apply Hout. apply mapM_Ok in E. clear Hout.
    induction E as [|i d row' r' Hi _ IH]; constructor; [|done].
    by apply getitem_Ok in Hi as [Hi _].
  - apply mapM_Raise in E as (i & _ & Hi). by apply getitem_Raise in Hi as ->.
Qed.

Lemma mapM_getitem_in (passages : list str) (row : list Z) :
  Forall (in_bounds passages) row ->
  exists hits, mapM (getitem passages) row = Ok hits.
Proof.
  intros Hin. destruct (mapM (getitem passages) row) as [hits|e] eqn:E;
    [by exists hits|].
  apply mapM_Raise in E as (i & Hi & Hr). rewrite Forall_forall in Hin.
  destruct (getitem_in passages i (Hin i Hi)) as [d Hd]. congruence.
Qed.

(** What [hybrid_search] does, call by call. *)
Lemma hybrid_search_Ok (e : Loaded) (query : str) (k : Z) (texts : list str) :
  hybrid_search e query k = Ok texts ->
  exists row vector_hits bm25_hits,
    index_search e query k = Ok row
    /\ mapM (getitem (docs e)) row = Ok vector_hits
    /\ get_top_n e (split query) (docs e) k = Ok bm25_hits
    /\ texts = set_order e (list_to_set (vector_hits ++ bm25_hits)).
Proof.
  unfold hybrid_search.
  destruct (index_search e query k) as [row|] eqn:E1; simpl; [|done].
  destruct (mapM (getitem (docs e)) row) as [vector_hits|] eqn:E2;
    simpl; [|done].
  destruct (get_top_n e (split query) (docs e) k) as [bm25_hits|] eqn:E3;
    simpl; [|done].
  intros [= <-]. by exists row, vector_hits, bm25_hits.
Qed.

(** C5, at the definition the module ends with, over two loaded passages.
    For [k = 1] the index names the first passage and BM25 the second: the
    result holds both, two where [k] is one, and holds texts, not
    [(score, text)] pairs.  For [k = 3] the index fills its row with [-1],
    and [docs[-1]], the last passage, is looked up like any other index;
    an index past the end is not dropped either: it raises. *)
Theorem hybrid_search_rebound_exceeds_k :
  (exists texts : list str,
     hybrid_search two_passages (py "are returns free") 1 = Ok texts
     /\ texts ≡ₚ [py "returns are free"; py "shipping takes a week"]
     /\ ~ (Z.of_nat (length texts) <= 1)%Z)
  /\ index_search two_passages (py "are returns free") 3 = Ok [0; 1; -1]%Z
  /\ mapM (getitem (docs two_passages)) [0; 1; -1]%Z
     = Ok [py "returns are free"; py "shipping takes a week";
           py "shipping takes a week"]
  /\ mapM (getitem (docs two_passages)) [0; 2]%Z = Raise IndexError.
Proof.
  split; [|by vm_compute].
  eexists. split; [by vm_compute|]. split.
  - by apply Permutation_swap.
  - vm_compute. intros H. by apply H.
Qed.

End RetrieverTailFacts.

(** ** The reranker *)

Section RerankerFacts.
Import Reranker.

Lemma fallback_non_increasing (query : str) (candidates : list str) (k : Z) :
  non_increasing (map fst (fallback query candidates k)).
Proof. apply (non_increasing_sorted_slice fst). Qed.

Lemma model_path_non_increasing model query candidates k r :
  model_path model query candidates k = Ok r -> non_increasing (map fst r).
Proof.
  unfold model_path, mbind, result_bind.
  destruct (model _) as [scores|]; [|done]. intros [= <-].
  apply (non_increasing_sorted_slice fst).
Qed.

(** Both paths of the reranker return their scores best first. *)
Lemma rerank_non_increasing ce (query : str) (candidates : list str) (k : Z) :
  non_increasing (map fst (rerank ce query candidates k)).
Proof.
  unfold rerank. destruct candidates as [|c cs]; [by intros [|?] ? ?|].
  destruct ce as [model|]; [|apply fallback_non_increasing].
  destruct (model_path model query (c :: cs) k) as [r|] eqn:E; simpl.
  - by eapply model_path_non_increasing.
  - apply fallback_non_increasing.
Qed.

(** C6, on the example of the design document: the candidate that shares no
    token with the query is scored 0 and stays in the output. *)
Lemma rerank_keeps_zero_overlap :
  overlap (list_to_set (split (lower (py "red car price")))) (py "blue bike")
    = 0%nat
  /\ rerank None (py "red car price")
        [py "the red car costs a lot"; py "blue bike"] 3
      = [(2 # 1, py "the red car costs a lot"); (0 # 1, py "blue bike")].
Proof. split; by vm_compute. Qed.

(** C6: without a scoring model, [rerank] scores every candidate by the
    number of lowercase tokens it shares with the lowercased query, keeps
    all of them, zero scores included, orders them best first with ties in
    the order of the candidates, and returns the slice [[:top_k]]. *)
Theorem rerank_fallback_lexical
    (query : str) (candidates : list str) (top_k : Z) :
  let qset : gset str := list_to_set (split (lower query)) in
  let scored :=
    map (fun d => (float_of_nat
                     (size (qset ∩ list_to_set (split (lower d)))), d))
        candidates in
  exists ranked : list ScoredPassage,
    rerank None query candidates top_k = slice_to top_k ranked
    /\ ranked ≡ₚ scored
    /\ non_increasing (map fst ranked)
    /\ forall c : Q,
         filter (fun x : ScoredPassage => Qeq_bool x.1 c = true) ranked
         = filter (fun x : ScoredPassage => Qeq_bool x.1 c = true) scored.
Proof.
  intros qset scored.
  exists (sorted (fun x : Q * str => (- x.1)%Q) scored). split; [|split; [|split]].
  - unfold rerank. destruct candidates as [|d ds]; [|reflexivity].
    unfold slice_to; simpl. by destruct (top_k <? 0)%Z; rewrite take_nil.
  - apply sorted_Permutation.
  - apply Sorted_non_increasing, sorted_Sorted.
  - intros c.
    pose proof (sorted_stable (fun x : Q * str => (- x.1)%Q) (- c)%Q scored) as H.
    assert (forall l : list ScoredPassage,
              filter (fun x : ScoredPassage => Qeq_bool x.1 c = true) l
              = filter (fun y : ScoredPassage => Qeq_bool (- y.1) (- c) = true) l) as E.
    { intros l. apply list_filter_iff. intros x.
      rewrite !Qeq_bool_iff. split; intros Hx.
      - by rewrite Hx.
      - rewrite <- (Qopp_involutive x.1), Hx. apply Qopp_involutive. }
    by rewrite !E.
Qed.

End RerankerFacts.

(** ** The coordinator *)

Section RealtimeFacts.
Import Realtime.
Context (env : Env).

Lemma handle_partial_history (c : Coordinator) (p : str) :
  history (handle_partial c p) = history c
  /\ metrics (handle_partial c p) = metrics c.
Proof. done. Qed.

(** A turn of a task changes the task table at that task only, and keeps
    its transcript and its cancellation request. *)
Lemma run_task_tasks (c : Coordinator) (id : nat) (now : Q) (t : Task) :
  tasks c !! id = Some t ->
  exists s, tasks (run_task env c id now) = <[id := set_stage t s]> (tasks c).
Proof.
  intros Ht. unfold run_task. rewrite Ht.
  destruct (must_cancel t); [by eexists|].
  destruct (resume _ _ _ _ _); by eexists.
Qed.

Lemma run_task_missing (c : Coordinator) (id : nat) (now : Q) :
  tasks c !! id = None -> run_task env c id now = c.
Proof. intros Ht. unfold run_task. by rewrite Ht. Qed.

(** A cancelled task is resumed with CancelledError and touches neither
    the history nor the metrics. *)
Lemma run_task_cancelled (c : Coordinator) (id : nat) (now : Q) (t : Task) :
  tasks c !! id = Some t -> must_cancel t = true ->
  history (run_task env c id now) = history c
  /\ metrics (run_task env c id now) = metrics c
  /\ stage_of (run_task env c id now) id = Some (resume_cancelled (at_ t)).
Proof.
  intros Ht Hc. unfold run_task, stage_of. rewrite Ht, Hc. simpl.
  split; [done|]. split; [done|].
  rewrite list_lookup_insert_eq; [done|]. by eapply lookup_lt_Some.
Qed.

Lemma resume_cancelled_not_finished (s : stage) :
  s <> Finished -> resume_cancelled s <> Finished.
Proof. by destruct s. Qed.

(** [resume] completes from the last [await] only. *)
Lemma resume_Complete h p now s rt total answer :
  resume env h p now s = Complete rt total answer ->
  exists start_ts, s = AwaitSpeak start_ts rt answer
                   /\ total = (now - start_ts)%Q
                   /\ tts_speak env answer = Ok ().
Proof.
  destruct s; simpl; unfold try_or, mbind, result_bind, mret, result_ret;
    repeat case_match; simplify_eq; try done.
  intros [= <- <- <-]. eexists. by destruct a.
Qed.

Lemma resume_Goto_not_finished h p now s s' :
  s <> Finished -> resume env h p now s = Goto s' -> s' <> Finished.
Proof.
  destruct s; simpl; try done; intros _;
    unfold try_or, mbind, result_bind, mret, result_ret;
    repeat case_match; simplify_eq; try done; by intros [= <-].
Qed.

(** The request to cancel a task is never withdrawn. *)
Lemma step_must_cancel (c : Coordinator) (ev : event) (id : nat) (t : Task) :
  tasks c !! id = Some t -> must_cancel t = true ->
  exists t', tasks (step env c ev) !! id = Some t' /\ must_cancel t' = true.
Proof.
  intros Ht Hc. pose proof (lookup_lt_Some _ _ _ Ht) as Hlt.
  destruct ev as [p|j now]; simpl.
  - unfold handle_partial; simpl.
    destruct (_current_task c) as [cur|]; [|by rewrite lookup_app_l; eauto].
    destruct (tasks c !! cur) as [tc|] eqn:Ec; [|by rewrite lookup_app_l; eauto].
    destruct (done tc); [by rewrite lookup_app_l; eauto|].
    rewrite lookup_app_l by by rewrite length_insert.
    destruct (decide (cur = id)) as [->|Hne].
    + rewrite list_lookup_insert_eq by done. by eexists.
    + rewrite list_lookup_insert_ne by done. eauto.
  - destruct (tasks c !! j) as [tj|] eqn:Ej.
    + destruct (run_task_tasks c j now tj Ej) as [s ->].
      destruct (decide (j = id)) as [->|Hne].
      * rewrite list_lookup_insert_eq by done. simplify_eq. by eexists.
      * rewrite list_lookup_insert_ne by done. eauto.
    + rewrite run_task_missing by done. eauto.
Qed.

Lemma run_must_cancel (evs : list event) (c : Coordinator) (id : nat) (t : Task) :
  tasks c !! id = Some t -> must_cancel t = true ->
  exists t', tasks (run env c evs) !! id = Some t' /\ must_cancel t' = true.
Proof.
  revert c t; induction evs as [|ev evs IH]; intros c t Ht Hc; simpl; [eauto|].
  destruct (step_must_cancel c ev id t Ht Hc) as (t' & Ht' & Hc'). eauto.
Qed.

(** [handle_partial] asks the Run it supersedes to cancel. *)
Lemma handle_partial_cancels (c : Coordinator) (p : str) (id : nat) (t : Task) :
  _current_task c = Some id -> tasks c !! id = Some t -> done t = false ->
  tasks (handle_partial c p) !! id = Some (cancel t).
Proof.
  intros Hcur Ht Hd. unfold handle_partial; simpl. rewrite Hcur, Ht, Hd.
  pose proof (lookup_lt_Some _ _ _ Ht).
  rewrite lookup_app_l by by rewrite length_insert.
  by rewrite list_lookup_insert_eq.
Qed.

(** [handle_partial] calls no collaborator: whatever state the earlier
    Runs ended in, it leaves a fresh task as the current one. *)
Lemma handle_partial_new_task (c : Coordinator) (p : str) :
  _current_task (handle_partial c p) = Some (length (tasks c))
  /\ tasks (handle_partial c p) !! length (tasks c)
     = Some {| partial := p; at_ := Created; must_cancel := false |}.
Proof.
  unfold handle_partial; simpl.
  set (tasks' := match _current_task c with
                 | Some id =>
                     match tasks c !! id with
                     | Some t =>
                         if done t then tasks c else <[id := cancel t]> (tasks c)
                     | None => tasks c
                     end
                 | None => tasks c
                 end).
  assert (length tasks' = length (tasks c)) as E.
  { unfold tasks'. destruct (_current_task c) as [id|]; [|done].
    destruct (tasks c !! id) as [t|]; [|done].
    destruct (done t); [done|]. by rewrite length_insert. }
  rewrite E. split; [done|].
  rewrite lookup_app_r by lia. by rewrite E, Nat.sub_diag.
Qed.

(** What one turn of a task does to the history and the metrics. *)
Lemma run_task_effect (c : Coordinator) (id : nat) (now : Q) :
  (completes env c id now
   /\ exists t start_ts retrieval_time final_answer,
        tasks c !! id = Some t /\ must_cancel t = false
        /\ at_ t = AwaitSpeak start_ts retrieval_time final_answer
        /\ tts_speak env final_answer = Ok ()
        /\ history (run_task env c id now)
            = history c ++ [partial t; final_answer]
        /\ metrics (run_task env c id now)
            = add (metrics c) retrieval_time (now - start_ts))
  \/ (~ completes env c id now
      /\ history (run_task env c id now) = history c
      /\ metrics (run_task env c id now) = metrics c).
Proof.
  destruct (tasks c !! id) as [t|] eqn:Et.
  2:{ right. rewrite run_task_missing by done. split; [|done].
      intros [_ H]. unfold stage_of in H. by rewrite run_task_missing, Et in H. }
  pose proof (lookup_lt_Some _ _ _ Et) as Hlt.
  destruct (must_cancel t) eqn:Ec.
  { right. destruct (run_task_cancelled c id now t Et Ec) as (Hh & Hm & Hs).
    split; [|done]. intros [Hpre Hpost]. rewrite Hs in Hpost.
    unfold stage_of in Hpre. rewrite Et in Hpre. simpl in Hpre.
    injection Hpost as Hpost. revert Hpost. apply resume_cancelled_not_finished.
    congruence. }
  unfold completes, stage_of, run_task. rewrite Et, Ec. simpl.
  destruct (resume env (history c) (partial t) now (at_ t)) as [s|rt total a] eqn:Er;
    simpl; rewrite list_lookup_insert_eq by done; simpl.
  - right. split; [|done]. intros [Hpre [= Hpost]]. subst s.
    eapply resume_Goto_not_finished; [|exact Er|done]. congruence.
  - left. apply resume_Complete in Er as (start_ts & Hs & -> & Hok).
    split; [split; [by rewrite Hs|done]|].
    by exists t, start_ts, rt, a.
Qed.


(** C2: a Run that a later [handle_partial] supersedes before it is done
    appends nothing to the history and records no metrics in any of its
    later turns, whatever happens in between; and, said the other way round,
    a step that changes the history or the metrics is the turn in which a
    Run reaches its end. *)
Theorem superseded_run_has_no_effect
    (c : Coordinator) (id : nat) (t : Task) (p : str)
    (later : list event) (now : Q) :
  _current_task c = Some id -> tasks c !! id = Some t -> done t = false ->
  let c1 := run env (handle_partial c p) later in
  (history (step env c1 (Resume id now)) = history c1
   /\ metrics (step env c1 (Resume id now)) = metrics c1
   /\ ~ completes env c1 id now)
  /\ (forall c' ev,
        history (step env c' ev) <> history c'
        \/ metrics (step env c' ev) <> metrics c' ->
        exists id' now', ev = Resume id' now' /\ completes env c' id' now').
Proof.
  intros Hcur Ht Hd c1. split.
  - pose proof (handle_partial_cancels c p id t Hcur Ht Hd) as H1.
    destruct (run_must_cancel later _ id _ H1 eq_refl) as (t' & Ht' & Hc').
    fold c1 in Ht'. simpl.
    destruct (run_task_cancelled c1 id now t' Ht' Hc') as (Hh & Hm & _).
    split; [done|]. split; [done|].
    destruct (run_task_effect c1 id now) as [[_ H]|[H _]]; [|done].
    destruct H as (t0 & ? & ? & ? & Ht0 & Hc0 & _). congruence.
  - intros c' [p'|id' now'] Hch; simpl in Hch.
    + by destruct Hch.
    + exists id', now'. split; [done|].
      destruct (run_task_effect c' id' now') as [[H _]|(_ & Hh & Hm)]; [done|].
      destruct Hch; congruence.
Qed.

(** C4: when a turn of a task is the one in which its Run reaches the end,
    the history grows in that turn by exactly two entries, the transcript
    of the Run and then its final answer, and the metrics count one more
    run; any other turn of any task leaves the history as it is, and so
    does every turn of the task after that one. *)
Theorem completed_run_appends_two (c : Coordinator) (id : nat) (now : Q) :
  completes env c id now ->
  (exists t start_ts retrieval_time final_answer,
     tasks c !! id = Some t
     /\ at_ t = AwaitSpeak start_ts retrieval_time final_answer
     /\ history (run_task env c id now)
         = history c ++ [partial t; final_answer]
     /\ runs (metrics (run_task env c id now)) = (runs (metrics c) + 1)%Z)
  /\ (forall c' id' now', ~ completes env c' id' now' ->
        history (run_task env c' id' now') = history c')
  /\ (forall now',
        run_task env (run_task env c id now) id now' = run_task env c id now).
Proof.
  intros Hdone. split; [|split].
  - destruct (run_task_effect c id now) as [[_ H]|[H _]]; [|done].
    destruct H as (t & st & rt & a & Ht & _ & Hs & _ & Hh & Hm).
    exists t, st, rt, a. by rewrite Hm.
  - intros c' id' now' Hn.
    by destruct (run_task_effect c' id' now') as [[H _]|(_ & Hh & _)].
  - intros now'. destruct Hdone as [_ Hpost]. unfold stage_of in Hpost.
    destruct (tasks (run_task env c id now) !! id) as [t'|] eqn:Et'; [|done].
    injection Hpost as Hs. unfold run_task at 1. rewrite Et'.
    destruct (run_task env c id now) as [h m ts cur] eqn:Ec. simpl in *.
    assert (<[id := set_stage t' Finished]> ts = ts) as Hid.
    { apply list_insert_id. rewrite Et'. f_equal. destruct t'; simpl in *.
      by subst. }
    destruct (must_cancel t'); rewrite Hs; simpl; by rewrite Hid.
Qed.



End RealtimeFacts.


Lemma superseded_run_has_no_effect_witness :
  let c := Realtime.run bare_env Realtime.init
             [Realtime.HandlePartial (py "tell me"); Realtime.Resume 0 1;
              Realtime.Resume 0 2] in
  let c1 := Realtime.run bare_env
              (Realtime.handle_partial c returns_policy)
              [Realtime.Resume 0 3; Realtime.Resume 1 4; Realtime.Resume 0 5] in
  Realtime.history (Realtime.step bare_env c1 (Realtime.Resume 0 6))
    = Realtime.history c1
  /\ Realtime.metrics (Realtime.step bare_env c1 (Realtime.Resume 0 6))
    = Realtime.metrics c1
  /\ ~ completes bare_env c1 0 6.
Proof.
  intros c c1.
  refine (proj1 (superseded_run_has_no_effect bare_env c 0
            {| Realtime.partial := py "tell me";
               Realtime.at_ :=
                 Realtime.AwaitRetrieval 1
                   (Realtime.unavailable ++ py ".");
               Realtime.must_cancel := false |}
            returns_policy
            [Realtime.Resume 0 3; Realtime.Resume 1 4; Realtime.Resume 0 5]
            6 _ _ _)); reflexivity.
Defined.

Lemma completed_run_appends_two_witness :
  Realtime.history (Realtime.run_task bare_env before_last_turn 0 6)
    = [returns_policy; Realtime.unavailable]
  /\ Realtime.runs
       (Realtime.metrics (Realtime.run_task bare_env before_last_turn 0 6))
     = 1%Z.
Proof.
  assert (completes bare_env before_last_turn 0 6) as H.
  { split; [by vm_compute|by vm_compute]. }
  destruct (completed_run_appends_two bare_env before_last_turn 0 6 H)
    as [(t & st & rt & a & Ht & Hs & Hh & Hm) _].
  vm_compute in Ht. injection Ht as <-. vm_compute in Hs.
  injection Hs as <- <- <-. split; [exact Hh|exact Hm].
Defined.


(** ** Words *)

Section PostprocessFacts.
Import Postprocess.

Lemma space_is_space : is_space space = true.
Proof. reflexivity. Qed.

Lemma is_word_cons (c : ascii) (w : str) :
  is_space c = false -> Forall (fun c => is_space c = false) w ->
  is_word (c :: w).
Proof. intros Hc Hw. split; [done|by constructor]. Qed.

Lemma split_space (c : ascii) (s : str) :
  is_space c = true -> split (c :: s) = split s.
Proof. intros Hc. simpl. by rewrite Hc. Qed.

(** A word followed by nothing or by white space is the first word. *)
Lemma split_word_app (w r : str) :
  is_word w -> starts_word r = false -> split (w ++ r) = w :: split r.
Proof.
  intros [Hne Hw] Hr. induction Hw as [|c w Hc Hw IH]; [done|]. clear Hne.
  simpl. rewrite Hc. destruct w as [|c' w].
  - simpl. by rewrite Hr.
  - specialize (IH ltac:(done)). inversion Hw as [|? ? Hc' _]; subst.
    change (starts_word ((c' :: w) ++ r)) with (negb (is_space c')).
    rewrite Hc'. simpl negb. cbv iota. by rewrite IH.
Qed.

Lemma split_join (ws : list str) :
  Forall is_word ws -> split (join [space] ws) = ws.
Proof.
  induction 1 as [|w ws Hw Hws IH]; [done|].
  destruct ws as [|w' ws].
  - simpl. rewrite <- (app_nil_r w) at 1. by rewrite split_word_app.
  - change (join [space] (w :: w' :: ws))
      with (w ++ space :: join [space] (w' :: ws)).
    rewrite split_word_app; [|done|done].
    by rewrite split_space, IH.
Qed.

Lemma split_words (s : str) : Forall is_word (split s).
Proof.
  induction s as [|c s IH]; simpl; [constructor|].
  destruct (is_space c) eqn:Ec; [done|].
  destruct (starts_word s) eqn:Es.
  - destruct (split s) as [|w ws]; simpl.
    + constructor; [by apply is_word_cons|constructor].
    + inversion IH as [|? ? [_ Hw] Hws]; subst.
      constructor; [|done]. by apply is_word_cons.
  - constructor; [|done]. by apply is_word_cons.
Qed.

Lemma split_starts_word (s : str) : starts_word s = true -> split s <> [].
Proof.
  destruct s as [|c s]; [done|]. simpl. intros Hc.
  destruct (is_space c); [done|].
  destruct (starts_word s); [by destruct (split s)|done].
Qed.

Lemma starts_word_space (s : str) :
  s <> [] -> starts_word s = negb (starts_space s).
Proof. by destruct s. Qed.

Lemma split_nil_starts_word (s : str) : split s = [] -> starts_word s = false.
Proof.
  intros Hs. destruct (starts_word s) eqn:E; [|done].
  by apply split_starts_word in E.
Qed.

Lemma ends_space_cons (c : ascii) (s : str) :
  s <> [] -> ends_space (c :: s) = ends_space s.
Proof.
  intros Hs. unfold ends_space. rewrite last_cons.
  destruct (last s) eqn:E; [done|]. by apply last_None in E.
Qed.

Lemma ends_space_app (s t : str) :
  t <> [] -> ends_space (s ++ t) = ends_space t.
Proof.
  intros Ht. unfold ends_space. rewrite last_app.
  destruct (last t) eqn:E; [done|]. by apply last_None in E.
Qed.

(** A text without a word is white space to its end. *)
Lemma split_nil_ends_space (s : str) :
  split s = [] -> s <> [] -> ends_space s = true.
Proof.
  induction s as [|c s IH]; [done|]. simpl. intros Hs _.
  destruct (is_space c) eqn:Ec.
  - destruct s as [|c' s]; [by unfold ends_space; simpl|].
    rewrite ends_space_cons by done. by apply IH.
  - destruct (starts_word s); [by destruct (split s)|done].
Qed.

Lemma join_cons (sep p : str) (ps : list str) :
  ps <> [] -> join sep (p :: ps) = p ++ sep ++ join sep ps.
Proof. by destruct ps. Qed.

Lemma join_words_nil (ws : list str) :
  Forall is_word ws -> join [space] ws = [] -> ws = [].
Proof.
  intros Hws. destruct Hws as [|w ws [Hw _] _]; [done|].
  destruct ws; simpl; [done|]. by destruct w.
Qed.

Lemma join_words_starts (ws : list str) :
  Forall is_word ws -> starts_space (join [space] ws) = false.
Proof.
  intros Hws. destruct Hws as [|w ws [Hne Hw] _]; [done|].
  destruct Hw as [|c w Hc _]; [done|]. by destruct ws.
Qed.

Lemma word_ends (w : str) : is_word w -> ends_space w = false.
Proof.
  intros [Hne Hw]. unfold ends_space. destruct (last w) as [c|] eqn:E; [|done].
  apply last_Some_elem_of in E. by rewrite Forall_forall in Hw; apply Hw.
Qed.

Lemma join_words_ends (ws : list str) :
  Forall is_word ws -> ends_space (join [space] ws) = false.
Proof.
  induction 1 as [|w ws Hw Hws IH]; [done|].
  destruct ws as [|w' ws]; [by apply word_ends|].
  rewrite join_cons by done.
  assert (join [space] (w' :: ws) <> []) as Hne.
  { intros E. by apply join_words_nil in E. }
  rewrite !ends_space_app; [done|done|]. by destruct (join _ _).
Qed.

(** ** The normalisation of white space *)

(** [re.sub] leaves the words of the text one space apart, with one more
    space in front when the text starts with white space and one behind
    when it ends with white space after a word. *)
Lemma collapse_ws_words (s : str) :
  collapse_ws s
  = (if starts_space s then [space] else [])
    ++ join [space] (split s)
    ++ (if ends_space s && bool_decide (split s <> []) then [space] else []).
Proof.
  induction s as [|c s IH]; [done|].
  cbn [collapse_ws split starts_space]. destruct (is_space c) eqn:Ec.
  - destruct s as [|c' s]; [by unfold ends_space; simpl; rewrite Ec|].
    rewrite ends_space_cons by done.
    cbn [starts_space] in *. destruct (is_space c') eqn:Ec'; [done|].
    by rewrite IH.
  - destruct s as [|c' s]; [by unfold ends_space; simpl; rewrite Ec|].
    rewrite ends_space_cons by done. rewrite IH. clear IH.
    cbn [starts_word starts_space]. destruct (is_space c') eqn:Ec'; simpl negb; cbv iota.
    + destruct (split (c' :: s)) as [|w ws] eqn:Es.
      * by rewrite (split_nil_ends_space (c' :: s)).
      * rewrite (join_cons _ [c]) by done.
        by rewrite !bool_decide_eq_true_2.
    + destruct (split (c' :: s)) as [|w ws] eqn:Es.
      { exfalso. apply (split_starts_word (c' :: s)); [|done]. simpl. by rewrite Ec'. }
      simpl cons_char. rewrite !bool_decide_eq_true_2 by done.
      by destruct ws.
Qed.

Lemma lstrip_id (s : str) : starts_space s = false -> lstrip s = s.
Proof. destruct s as [|c s]; [done|]. simpl. by intros ->. Qed.

Lemma lstrip_space (s : str) : lstrip (space :: s) = lstrip s.
Proof. done. Qed.

Lemma starts_space_rev (s : str) : starts_space (rev s) = ends_space s.
Proof.
  unfold ends_space. destruct s as [|c s] using rev_ind; [done|].
  rewrite rev_app_distr, last_snoc. done.
Qed.

Lemma strip_collapse_ws (s : str) :
  strip (collapse_ws s) = join [space] (split s).
Proof.
  rewrite collapse_ws_words. pose proof (split_words s) as Hws.
  destruct (split s) as [|w ws] eqn:Es.
  { rewrite andb_false_r. simpl. unfold strip.
    destruct (starts_space s); by simpl. }
  rewrite bool_decide_eq_true_2, andb_true_r by done.
  set (J := join [space] (w :: ws)).
  pose proof (join_words_starts _ Hws) as Hst. fold J in Hst.
  pose proof (join_words_ends _ Hws) as Hen. fold J in Hen.
  assert (J <> []) as Hne. { intros E. by apply join_words_nil in E. }
  assert (forall t, starts_space (J ++ t) = false) as Hst'.
  { intros t. by destruct J. }
  unfold strip.
  assert (lstrip ((if starts_space s then [space] else []) ++ J
                  ++ (if ends_space s then [space] else []))
          = J ++ (if ends_space s then [space] else [])) as ->.
  { destruct (starts_space s); simpl app; [rewrite lstrip_space|];
      by apply lstrip_id. }
  rewrite rev_app_distr.
  assert (lstrip (rev (if ends_space s then [space] else []) ++ rev J) = rev J) as ->.
  { destruct (ends_space s); simpl rev; simpl app; [rewrite lstrip_space|];
      apply lstrip_id; by rewrite starts_space_rev. }
  apply rev_involutive.
Qed.

(** ** The sentence splitter *)

Lemma ends_terminal_cons (c : ascii) (w : str) :
  w <> [] -> ends_terminal (c :: w) = ends_terminal w.
Proof.
  intros Hw. unfold ends_terminal. rewrite last_cons.
  destruct (last w) eqn:E; [done|]. by apply last_None in E.
Qed.

Lemma not_space (c : ascii) : is_space c = false -> bool_decide (c = space) = false.
Proof. intros Hc. apply bool_decide_eq_false. by intros ->. Qed.

(** A word is read into the current piece, whatever the state. *)
Lemma re_split_word (st : scan) (w r : str) :
  is_word w ->
  re_split st (w ++ r) = prepend w (re_split (InText (ends_terminal w)) r).
Proof.
  intros [Hne Hw]. revert st.
  induction Hw as [|c w Hc Hw IH]; intros st; [done|]. clear Hne.
  assert (re_split st (c :: w ++ r)
          = cons_char c (re_split (InText (is_terminal c)) (w ++ r))) as E.
  { simpl. rewrite (not_space c Hc). destruct st as [[]|]; done. }
  change ((c :: w) ++ r) with (c :: w ++ r). rewrite E.
  destruct w as [|c' w].
  - simpl app. unfold ends_terminal. simpl.
    by destruct (re_split (InText (is_terminal c)) r).
  - rewrite IH by done. rewrite (ends_terminal_cons c (c' :: w)) by done.
    by destruct (re_split _ r).
Qed.

Lemma groups_cons (w w' : str) (ws : list str) :
  groups (w :: w' :: ws)
  = if ends_terminal w then [w] :: groups (w' :: ws)
    else cons_word w (groups (w' :: ws)).
Proof. done. Qed.

Lemma groups_head (ws : list str) :
  ws <> [] -> exists g gs, groups ws = g :: gs /\ g <> [].
Proof.
  induction ws as [|w ws IH]; [done|]. intros _.
  destruct ws as [|w' ws]; [by exists [w], []|].
  rewrite groups_cons. destruct (ends_terminal w); [by eexists _, _|].
  destruct IH as (g & gs & -> & Hg); [done|]. by exists (w :: g), gs.
Qed.

(** The pieces of a normalised text are its sentences. *)
Lemma re_split_join (ws : list str) (st : scan) :
  Forall is_word ws ->
  re_split st (join [space] ws) = map (join [space]) (groups ws).
Proof.
  intros Hws. revert st. induction Hws as [|w ws Hw Hws IH]; intros st; [done|].
  destruct ws as [|w' ws].
  - simpl join. rewrite <- (app_nil_r w) at 1. rewrite re_split_word by done.
    simpl. by rewrite app_nil_r.
  - rewrite join_cons by done. simpl app. rewrite re_split_word by done.
    rewrite groups_cons. destruct (ends_terminal w) eqn:Et.
    + simpl re_split. rewrite IH. simpl. by rewrite app_nil_r.
    + simpl re_split. rewrite IH.
      destruct (groups_head (w' :: ws)) as (g & gs & -> & Hg); [done|].
      cbn [map cons_char cons_word prepend]. by rewrite (join_cons _ w g).
Qed.

(** ** Sentences, word by word *)

Lemma groups_concat (ws : list str) : concat (groups ws) = ws.
Proof.
  induction ws as [|w ws IH]; [done|]. destruct ws as [|w' ws]; [done|].
  rewrite groups_cons. destruct (ends_terminal w); [by rewrite <- IH at 2|].
  destruct (groups (w' :: ws)) as [|g gs]; simpl in *; by rewrite <- IH.
Qed.

Lemma groups_words (ws : list str) :
  Forall is_word ws -> Forall (Forall is_word) (groups ws).
Proof.
  intros Hws. rewrite <- (groups_concat ws) in Hws.
  induction (groups ws) as [|g gs IH]; [done|].
  simpl in Hws. apply Forall_app in Hws as [Hg Hgs]. constructor; auto.
Qed.

Lemma group_ok_nonempty (final : bool) (g : list str) : group_ok final g -> g <> [].
Proof. by destruct g. Qed.

Lemma well_grouped_nonempty (gs : list (list str)) :
  well_grouped gs -> Forall (fun g => g <> []) gs.
Proof.
  induction gs as [|g gs IH]; [done|]. destruct gs as [|g' gs].
  - intros H. constructor; [by eapply group_ok_nonempty|done].
  - intros [H1 H2]. constructor; [by eapply group_ok_nonempty|auto].
Qed.

Lemma groups_well_grouped (ws : list str) : ws <> [] -> well_grouped (groups ws).
Proof.
  induction ws as [|w ws IH]; [done|]. intros _.
  destruct ws as [|w' ws]; [by left|].
  rewrite groups_cons. specialize (IH ltac:(done)).
  destruct (groups_head (w' :: ws)) as (g & gs & E & Hg); [done|].
  destruct (ends_terminal w) eqn:Et.
  - rewrite E in *. split; [by right|done].
  - rewrite E in *. simpl cons_word. destruct g as [|w1 g]; [done|].
    destruct gs as [|g' gs]; simpl in *; tauto.
Qed.

(** A sentence in front of more words is the first sentence of the whole. *)
Lemma groups_app (g ws : list str) :
  group_ok false g -> ws <> [] -> groups (g ++ ws) = g :: groups ws.
Proof.
  intros Hg Hws. induction g as [|w g IH]; [done|].
  destruct g as [|w' g].
  - destruct Hg as [|Hg]; [done|]. destruct ws as [|w' ws]; [done|].
    simpl app. by rewrite groups_cons, Hg.
  - destruct Hg as [Hw Hg]. change ((w :: w' :: g) ++ ws) with (w :: w' :: (g ++ ws)).
    rewrite groups_cons, Hw. change (w' :: g ++ ws) with ((w' :: g) ++ ws).
    by rewrite IH.
Qed.

Lemma groups_single (g : list str) : group_ok true g -> groups g = [g].
Proof.
  induction g as [|w g IH]; [done|]. destruct g as [|w' g]; [done|].
  intros [Hw Hg]. by rewrite groups_cons, Hw, IH.
Qed.

Lemma group_ok_weaken (g : list str) : group_ok false g -> group_ok true g.
Proof.
  induction g as [|w g IH]; [done|]. destruct g as [|w' g]; [by left|].
  intros [Hw Hg]. split; auto.
Qed.

Lemma groups_of_concat (gs : list (list str)) :
  well_grouped gs -> groups (concat gs) = gs.
Proof.
  induction gs as [|g gs IH]; [done|]. destruct gs as [|g' gs].
  - intros Hg. simpl. rewrite app_nil_r. by apply groups_single.
  - intros [Hg Hgs]. change (concat (g :: g' :: gs)) with (g ++ concat (g' :: gs)).
    rewrite groups_app, IH; [done|done|done|].
    apply well_grouped_nonempty in Hgs. inversion Hgs; subst.
    simpl. by destruct g'.
Qed.

(** ** Shortening *)

Lemma join_add_ellipsis (l : list str) :
  join [space] l ++ py "..." = join [space] (add_ellipsis l).
Proof.
  induction l as [|w l IH]; [done|]. destruct l as [|w' l]; [done|].
  rewrite join_cons by done.
  change (add_ellipsis (w :: w' :: l)) with (w :: add_ellipsis (w' :: l)).
  rewrite (join_cons _ w (add_ellipsis (w' :: l))) by by destruct l.
  by rewrite <- IH, <- !app_assoc.
Qed.

Lemma add_ellipsis_length (l : list str) :
  length (add_ellipsis l) = Nat.max 1 (length l).
Proof.
  induction l as [|w l IH]; [done|]. destruct l as [|w' l]; [done|].
  change (add_ellipsis (w :: w' :: l)) with (w :: add_ellipsis (w' :: l)).
  simpl length in *. lia.
Qed.

Lemma is_word_dots : is_word (py "...").
Proof. split; [done|by repeat constructor]. Qed.

Lemma is_word_app_dots (w : str) : is_word w -> is_word (w ++ py "...").
Proof.
  intros [Hne Hw]. split; [by destruct w|].
  apply Forall_app. split; [done|by repeat constructor].
Qed.

Lemma add_ellipsis_words (l : list str) :
  Forall is_word l -> Forall is_word (add_ellipsis l).
Proof.
  induction 1 as [|w ws Hw Hl IH]; [by constructor; [apply is_word_dots|]|].
  destruct ws as [|w' ws].
  - constructor; [by apply is_word_app_dots|done].
  - by constructor.
Qed.

Lemma shorten_group_words (n : nat) (g : list str) :
  Forall is_word g -> Forall is_word (shorten_group n g).
Proof.
  intros Hg. unfold shorten_group. destruct (n <? length g)%nat; [|done].
  by apply add_ellipsis_words, Forall_take.
Qed.

Lemma shorten_join (n : Z) (g : list str) :
  (0 <= n)%Z -> Forall is_word g ->
  shorten n (join [space] g) = join [space] (shorten_group (Z.to_nat n) g).
Proof.
  intros Hn Hg. unfold shorten, shorten_group. rewrite split_join by done.
  rewrite slice_to_nonneg by done.
  destruct (Z.ltb_spec n (Z.of_nat (length g)));
    destruct (Nat.ltb_spec (Z.to_nat n) (length g)); try lia; [|done].
  apply join_add_ellipsis.
Qed.

Lemma shorten_group_idem (n : nat) (g : list str) :
  shorten_group n (shorten_group n g) = shorten_group n g.
Proof.
  unfold shorten_group. destruct (Nat.ltb_spec n (length g)) as [Hlt|Hge].
  - rewrite add_ellipsis_length, length_take. destruct n as [|n]; [done|].
    destruct (Nat.ltb_spec (S n) (Nat.max 1 (S n `min` length g))); [lia|done].
  - by destruct (Nat.ltb_spec n (length g)); [lia|].
Qed.

Lemma ends_terminal_dots (w : str) : ends_terminal (w ++ py "...") = true.
Proof.
  unfold ends_terminal. change (py "...") with (py ".." ++ ["."%char]).
  by rewrite app_assoc, last_snoc.
Qed.

Lemma group_ok_add_ellipsis (final : bool) (l : list str) :
  Forall (fun w => ends_terminal w = false) l -> group_ok final (add_ellipsis l).
Proof.
  induction 1 as [|w ws Hw Hl IH]; [by right|]. destruct ws as [|w' ws].
  - right. apply ends_terminal_dots.
  - change (add_ellipsis (w :: w' :: ws)) with (w :: add_ellipsis (w' :: ws)).
    assert (add_ellipsis (w' :: ws) <> []) by by destruct ws.
    revert IH H. generalize (add_ellipsis (w' :: ws)).
    intros [|x xs] IH H; [done|]. by split.
Qed.

(** Every word of a sentence but its last one is free of [[.!?]] at its
    end. *)
Lemma group_ok_take (final : bool) (n : nat) (g : list str) :
  group_ok final g -> n < length g ->
  Forall (fun w => ends_terminal w = false) (take n g).
Proof.
  revert n; induction g as [|w g IH]; intros n; [done|].
  destruct g as [|w' g]; intros Hg Hn.
  - simpl in Hn. assert (n = 0%nat) as -> by lia. constructor.
  - destruct Hg as [Hw Hg]. destruct n as [|n]; [constructor|].
    simpl take. constructor; [done|]. apply IH; [done|]. simpl in *. lia.
Qed.

Lemma shorten_group_ok (final : bool) (n : nat) (g : list str) :
  group_ok final g -> group_ok final (shorten_group n g).
Proof.
  intros Hg. unfold shorten_group. destruct (Nat.ltb_spec n (length g)); [|done].
  by eapply group_ok_add_ellipsis, group_ok_take.
Qed.

Lemma well_grouped_shorten (n : nat) (gs : list (list str)) :
  well_grouped gs -> well_grouped (map (shorten_group n) gs).
Proof.
  induction gs as [|g gs IH]; [done|]. destruct gs as [|g' gs].
  - apply shorten_group_ok.
  - intros [Hg Hgs]. split; [by apply shorten_group_ok|by apply IH].
Qed.

Lemma join_app (sep : str) (l1 l2 : list str) :
  l1 <> [] -> l2 <> [] ->
  join sep (l1 ++ l2) = join sep l1 ++ sep ++ join sep l2.
Proof.
  intros H1 H2. induction l1 as [|p l1 IH]; [done|]. destruct l1 as [|p' l1].
  - simpl app. by rewrite join_cons.
  - change ((p :: p' :: l1) ++ l2) with (p :: (p' :: l1) ++ l2).
    rewrite !join_cons by done. rewrite IH by done. by rewrite <- !app_assoc.
Qed.

(** Joining the sentences joins their words. *)
Lemma join_concat (gs : list (list str)) :
  Forall (fun g => g <> []) gs ->
  join [space] (map (join [space]) gs) = join [space] (concat gs).
Proof.
  induction 1 as [|g gs Hg Hgs IH]; [done|]. destruct gs as [|g' gs].
  - simpl. by rewrite app_nil_r.
  - change (map (join [space]) (g :: g' :: gs))
      with (join [space] g :: map (join [space]) (g' :: gs)).
    rewrite join_cons by done. rewrite IH.
    change (concat (g :: g' :: gs)) with (g ++ concat (g' :: gs)).
    rewrite join_app; [done|done|]. inversion Hgs; subst. simpl. by destruct g'.
Qed.

(** ** postprocess_for_voice *)

(** The transform, read on the sentences of the words of the text. *)
Lemma postprocess_words (text : str) (n : Z) :
  (0 <= n)%Z ->
  postprocess_for_voice text n
  = join [space]
      (map (join [space])
           (map (shorten_group (Z.to_nat n)) (groups (split text)))).
Proof.
  intros Hn. unfold postprocess_for_voice.
  rewrite strip_collapse_ws, (re_split_join _ _ (split_words text)).
  f_equal. rewrite !map_map.
  pose proof (groups_words _ (split_words text)) as Hgs.
  induction Hgs as [|g gs Hg Hgs IH]; [done|].
  simpl. by rewrite shorten_join, IH.
Qed.

Lemma shorten_within_bound (n : Z) (p : str) :
  (Z.of_nat (length (split p)) <= n)%Z -> shorten n p = p.
Proof.
  intros Hp. unfold shorten.
  by destruct (Z.ltb_spec n (Z.of_nat (length (split p)))); [lia|].
Qed.

Lemma postprocess_for_voice_idem (text : str) (n : Z) :
  (0 <= n)%Z ->
  postprocess_for_voice (postprocess_for_voice text n) n
  = postprocess_for_voice text n.
Proof.
  intros Hn. rewrite (postprocess_words text n Hn).
  set (m := Z.to_nat n). destruct (split text) as [|w ws] eqn:Es.
  { simpl. by rewrite (postprocess_words [] n Hn). }
  set (gs := map (shorten_group m) (groups (w :: ws))).
  assert (well_grouped gs) as Hwg.
  { apply well_grouped_shorten, groups_well_grouped. done. }
  assert (Forall is_word (concat gs)) as Hws.
  { apply Forall_concat. unfold gs. rewrite Forall_map.
    pose proof (split_words text) as H. rewrite Es in H.
    apply groups_words in H. eapply Forall_impl; [exact H|].
    intros g Hg. by apply shorten_group_words. }
  rewrite (join_concat gs) by by apply well_grouped_nonempty.
  rewrite (postprocess_words _ n Hn). fold m.
  rewrite split_join, groups_of_concat by done.
  rewrite join_concat.
  2:{ apply well_grouped_nonempty. by apply well_grouped_shorten. }
  f_equal. f_equal. unfold gs. rewrite map_map.
  apply map_ext. intros g. apply shorten_group_idem.
Qed.

(** C8, for a negative bound: [words[:-1]] drops the last word each time,
    so a second pass shortens the text again. *)
Lemma postprocess_negative_bound :
  postprocess_for_voice (py "a b c") (-1) = py "a b..."
  /\ postprocess_for_voice (postprocess_for_voice (py "a b c") (-1)) (-1)
     = py "a..."
  /\ postprocess_for_voice (postprocess_for_voice (py "a b c") (-1)) (-1)
     <> postprocess_for_voice (py "a b c") (-1).
Proof. split; [done|]. split; [done|]. by vm_compute. Qed.

(** C8: at any bound that is not negative, [postprocess_for_voice] applied
    twice gives exactly what it gives applied once, for every text; and a
    sentence that has no more words than the bound passes through the
    shortening unchanged. *)
Theorem postprocess_for_voice_idempotent (text : str) (max_sentence_words : Z) :
  (0 <= max_sentence_words)%Z ->
  postprocess_for_voice (postprocess_for_voice text max_sentence_words)
                        max_sentence_words
  = postprocess_for_voice text max_sentence_words
  /\ (forall p, (Z.of_nat (length (split p)) <= max_sentence_words)%Z ->
        shorten max_sentence_words p = p).
Proof.
  intros Hn. split; [by apply postprocess_for_voice_idem|].
  intros p. apply shorten_within_bound.
Qed.

Lemma postprocess_for_voice_idempotent_witness :
  Postprocess.postprocess_for_voice
    (Postprocess.postprocess_for_voice
       (py "  Hello   there. This is a very long sentence indeed!  ok? yes") 3)
    3
  = py "Hello there. This is a... ok? yes".
Proof.
  pose proof (postprocess_for_voice_idempotent
    (py "  Hello   there. This is a very long sentence indeed!  ok? yes") 3
    ltac:(lia)) as [H _].
  rewrite H. reflexivity.
Defined.

End PostprocessFacts.

(** ** More on retrieval and reranking *)

Section RetrievalMore.
Import Retriever Reranker.

Lemma slice_to_subseteq {A} (k : Z) (l : list A) : slice_to k l ⊆ l.
Proof.
  unfold slice_to. destruct (k <? 0)%Z; apply sublist_subseteq, sublist_take.
Qed.

Lemma slice_to_length_le {A} (k : Z) (l : list A) :
  length (slice_to k l) <= length l.
Proof. unfold slice_to. destruct (k <? 0)%Z; rewrite length_take; lia. Qed.

Lemma sorted_subseteq {A} (key : A -> Q) (l : list A) : sorted key l ⊆ l.
Proof. intros x. by rewrite sorted_Permutation. Qed.

Lemma model_path_zip model query candidates k r :
  model_path model query candidates k = Ok r ->
  exists scores : list Q,
    r = slice_to k (sorted (fun x : Q * str => (- x.1)%Q) (zip scores candidates)).
Proof.
  unfold model_path, mbind, result_bind.
  destruct (model _) as [scores|]; [|done]. intros [= <-]. by exists scores.
Qed.

Lemma rerank_cases ce (query : str) (candidates : list str) (k : Z) :
  exists scores : list Q,
    rerank ce query candidates k
    = slice_to k (sorted (fun x : Q * str => (- x.1)%Q) (zip scores candidates)).
Proof.
  assert (exists scores : list Q,
            fallback query candidates k
            = slice_to k (sorted (fun x : Q * str => (- x.1)%Q)
                                 (zip scores candidates))) as Hfb.
  { exists (map (fun d => float_of_nat
                            (overlap (list_to_set (split (lower query))) d))
                candidates).
    unfold fallback. do 2 f_equal.
    induction candidates as [|d ds IH]; [done|]. simpl. by rewrite IH. }
  unfold rerank. destruct candidates as [|c cs].
  { exists []. unfold slice_to. simpl. by destruct (k <? 0)%Z; rewrite take_nil. }
  destruct ce as [model|]; [|done].
  destruct (model_path model query (c :: cs) k) as [r|] eqn:E; simpl; [|done].
  by apply model_path_zip in E.
Qed.

(** X4: on the model path and on the fallback alike, [rerank] returns its
    scores best first, for a scoring model whose scores are numbers (a NaN
    among the scores is not covered). *)
Theorem rerank_best_first ce (query : str) (candidates : list str) (top_k : Z) :
  non_increasing (map fst (rerank ce query candidates top_k)).
Proof.
  destruct (rerank_cases ce query candidates top_k) as [scores ->].
  apply (non_increasing_sorted_slice fst).
Qed.

(** X5: [rerank] returns candidates only, never more of them than it was
    given, and never more than [top_k] when [top_k] is not negative; this
    holds for any scoring model, however many scores it returns. *)
Theorem rerank_returns_candidates
    ce (query : str) (candidates : list str) (top_k : Z) :
  Forall (fun x : ScoredPassage => x.2 ∈ candidates)
         (rerank ce query candidates top_k)
  /\ length (rerank ce query candidates top_k) <= length candidates
  /\ ((0 <= top_k)%Z ->
      (Z.of_nat (length (rerank ce query candidates top_k)) <= top_k)%Z).
Proof.
  destruct (rerank_cases ce query candidates top_k) as [scores ->].
  split; [|split].
  - apply Forall_forall. intros [s d] Hx.
    apply slice_to_subseteq, sorted_subseteq in Hx.
    by apply elem_of_zip_r in Hx.
  - etrans; [apply slice_to_length_le|].
    rewrite sorted_length, length_zip. lia.
  - apply slice_to_length.
Qed.

Lemma rerank_returns_candidates_witness :
  (Z.of_nat (length (Reranker.rerank None (py "red car price")
     [py "the red car costs a lot"; py "blue bike"] 1)) <= 1)%Z.
Proof.
  apply (rerank_returns_candidates None (py "red car price")
           [py "the red car costs a lot"; py "blue bike"] 1). lia.
Defined.

(** X6: a scoring model that raises is the same as no model: [rerank]
    answers with the fallback; and a model that scores every candidate
    loses none of them when [top_k] is at least their number. *)
Theorem rerank_model_outcomes
    (model : list (str * str) -> result (list Q))
    (query : str) (candidates : list str) (top_k : Z) :
  (forall err, model (map (fun c => (query, c)) candidates) = Raise err ->
     rerank (Some model) query candidates top_k
     = rerank None query candidates top_k)
  /\ (forall scores,
        model (map (fun c => (query, c)) candidates) = Ok scores ->
        length scores = length candidates ->
        (Z.of_nat (length candidates) <= top_k)%Z ->
        rerank (Some model) query candidates top_k ≡ₚ zip scores candidates).
Proof.
  split.
  - intros err Hm. unfold rerank. destruct candidates as [|c cs]; [done|].
    unfold model_path, mbind, result_bind. by rewrite Hm.
  - intros scores Hm Hlen Hk. unfold rerank.
    destruct candidates as [|c cs]; [by destruct scores|].
    unfold model_path, mbind, result_bind. rewrite Hm. simpl.
    rewrite slice_to_nonneg by lia. rewrite take_ge.
    + apply sorted_Permutation.
    + rewrite sorted_length, length_zip. lia.
Qed.

Lemma rerank_model_outcomes_witness :
  Reranker.rerank (Some (fun _ => Raise RuntimeError)) (py "red car price")
    [py "the red car costs a lot"; py "blue bike"] 3
  = Reranker.rerank None (py "red car price")
      [py "the red car costs a lot"; py "blue bike"] 3.
Proof.
  apply (rerank_model_outcomes (fun _ => Raise RuntimeError)
           (py "red car price")
           [py "the red car costs a lot"; py "blue bike"] 3)
    with (err := RuntimeError).
  reflexivity.
Defined.

Lemma size_list_to_set_le (l : list str) :
  size (list_to_set (C:=gset str) l) <= length l.
Proof.
  induction l as [|x l IH]; [done|].
  rewrite list_to_set_cons, length_cons, size_union_alt, size_singleton.
  assert (list_to_set (C:=gset str) l ∖ {[x]} ⊆ list_to_set l) as Hsub.
  { intros y Hy. by apply elem_of_difference in Hy as [Hy _]. }
  apply subseteq_size in Hsub. lia.
Qed.

Lemma Forall2_elem_of_r {A B} (P : A -> B -> Prop) (l : list A) (r : list B)
    (y : B) :
  Forall2 P l r -> y ∈ r -> exists x, x ∈ l /\ P x y.
Proof.
  intros H Hy. apply list_elem_of_lookup in Hy as [i Hi].
  destruct (Forall2_lookup_r _ _ _ _ _ H Hi) as (x & Hx & HP).
  exists x. split; [by eapply list_elem_of_lookup_2|done].
Qed.

Lemma Forall2_elem_of_l {A B} (P : A -> B -> Prop) (l : list A) (r : list B)
    (x : A) :
  Forall2 P l r -> x ∈ l -> exists y, y ∈ r /\ P x y.
Proof.
  intros H Hx. apply list_elem_of_lookup in Hx as [i Hi].
  destruct (Forall2_lookup_l _ _ _ _ _ H Hi) as (y & Hy & HP).
  exists y. split; [by eapply list_elem_of_lookup_2|done].
Qed.

(** X1: the [hybrid_search] that the module ends with.  When it returns,
    the index and BM25 have both answered and every index of the row is
    within the array, counted from either end; the result lists, each
    once, the passages [docs[i]] for the indices [i] of the row and the
    hits of BM25, and nothing else, so at most as many texts as the two
    services returned together.  When the index answers with an index
    beyond the array, [hybrid_search] raises IndexError; and it raises
    whatever the index or BM25 raises. *)
Theorem hybrid_search_rebound_hits
    (e : RetrieverTail.Loaded) (query : str) (k : Z) :
  lists_sets e ->
  (forall texts, RetrieverTail.hybrid_search e query k = Ok texts ->
     exists row bm25_hits,
       RetrieverTail.index_search e query k = Ok row
       /\ RetrieverTail.get_top_n e (split query) (RetrieverTail.docs e) k
          = Ok bm25_hits
       /\ Forall (in_bounds (RetrieverTail.docs e)) row
       /\ NoDup texts
       /\ (forall t, t ∈ texts <->
             (exists i, i ∈ row
                /\ RetrieverTail.getitem (RetrieverTail.docs e) i = Ok t)
             \/ t ∈ bm25_hits)
       /\ length texts <= length row + length bm25_hits)
  /\ (forall row, RetrieverTail.index_search e query k = Ok row ->
        ~ Forall (in_bounds (RetrieverTail.docs e)) row ->
        RetrieverTail.hybrid_search e query k = Raise IndexError)
  /\ (forall err, RetrieverTail.index_search e query k = Raise err ->
        RetrieverTail.hybrid_search e query k = Raise err)
  /\ (forall row err, RetrieverTail.index_search e query k = Ok row ->
        Forall (in_bounds (RetrieverTail.docs e)) row ->
        RetrieverTail.get_top_n e (split query) (RetrieverTail.docs e) k
          = Raise err ->
        RetrieverTail.hybrid_search e query k = Raise err).
Proof.
  intros Hset. split; [|split; [|split]].
  - intros texts H.
    apply hybrid_search_Ok in H as (row & vh & bh & Hrow & Hvh & Hbh & ->).
    exists row, bh. apply mapM_Ok in Hvh.
    split; [done|]. split; [done|]. split; [|split; [|split]].
    + clear Hrow. induction Hvh as [|i d row' r' Hi _ IH]; constructor; [|done].
      by apply getitem_Ok in Hi as [Hi _].
    + rewrite (Hset _). apply NoDup_elements.
    + intros t. rewrite (Hset _), elem_of_elements, elem_of_list_to_set,
        elem_of_app. split; intros [Ht|Ht]; try by right.
      * left. exact (Forall2_elem_of_r _ _ _ _ Hvh Ht).
      * left. destruct Ht as (i & Hi & Hg).
        destruct (Forall2_elem_of_l _ _ _ _ Hvh Hi) as (y & Hy & Hg').
        congruence.
    + rewrite (Hset _). fold (size (list_to_set (C:=gset str) (vh ++ bh))).
      etrans; [apply size_list_to_set_le|].
      rewrite length_app, (Forall2_length _ _ _ Hvh). lia.
  - intros row Hrow Hout. unfold RetrieverTail.hybrid_search.
    rewrite Hrow. simpl. by rewrite mapM_getitem_out.
  - intros err Hrow. unfold RetrieverTail.hybrid_search. by rewrite Hrow.
  - intros row err Hrow Hin Hbm. unfold RetrieverTail.hybrid_search.
    rewrite Hrow. simpl.
    destruct (mapM_getitem_in _ _ Hin) as [hits ->]. simpl. by rewrite Hbm.
Qed.

Lemma hybrid_search_rebound_hits_witness :
  exists row bm25_hits,
    RetrieverTail.index_search two_passages (py "are returns free") 3 = Ok row
    /\ RetrieverTail.get_top_n two_passages (split (py "are returns free"))
         (RetrieverTail.docs two_passages) 3 = Ok bm25_hits
    /\ Forall (in_bounds (RetrieverTail.docs two_passages)) row
    /\ NoDup [py "shipping takes a week"; py "returns are free"].
Proof.
  destruct (proj1 (hybrid_search_rebound_hits two_passages
                     (py "are returns free") 3 (fun s => reflexivity _))
              [py "shipping takes a week"; py "returns are free"])
    as (row & bm25_hits & H1 & H2 & H3 & H4 & _); [by vm_compute|].
  exists row, bm25_hits. exact (conj H1 (conj H2 (conj H3 H4))).
Defined.

(** X7: what [_retrieve_and_rerank] hands to the final prompt.  When it
    returns, the list has at most three entries, and each entry is one
    character: the second character [c[1]] of a text that [hybrid_search]
    returned.  When [hybrid_search] returns a text of fewer than two
    characters it raises IndexError, and it raises whatever
    [hybrid_search] raises. *)
Theorem retrieve_and_rerank_context
    (env : Realtime.Env) (history : list str) (query : str) :
  let q2 := Rewrite.rewrite_query query history in
  (forall contexts,
     Realtime._retrieve_and_rerank env history query = Ok contexts ->
     exists candidates,
       RetrieverTail.hybrid_search (Realtime.retriever env) q2 8
         = Ok candidates
       /\ length contexts <= 3
       /\ Forall (fun text =>
                    exists c ch, c ∈ candidates /\ c !! 1%nat = Some ch
                                 /\ text = [ch]) contexts)
  /\ (forall candidates,
        RetrieverTail.hybrid_search (Realtime.retriever env) q2 8
          = Ok candidates ->
        ~ Forall (fun c : str => 2 <= length c) candidates ->
        Realtime._retrieve_and_rerank env history query = Raise IndexError)
  /\ (forall e,
        RetrieverTail.hybrid_search (Realtime.retriever env) q2 8 = Raise e ->
        Realtime._retrieve_and_rerank env history query = Raise e).
Proof.
  intros q2. unfold Realtime._retrieve_and_rerank. fold q2.
  split; [|split].
  - intros contexts.
    destruct (RetrieverTail.hybrid_search _ q2 8) as [candidates|]; simpl;
      [|done].
    destruct (mapM Realtime.item1 candidates) as [texts|] eqn:Et; simpl;
      [|done].
    intros [= <-]. exists candidates. split; [done|].
    destruct (rerank_cases (Realtime.CrossEncoder env) q2 texts 3)
      as [scores ->].
    split.
    + rewrite length_map.
      pose proof (slice_to_length 3
        (sorted (fun x : Q * str => (- x.1)%Q) (zip scores texts))
        ltac:(lia)). lia.
    + apply Forall_forall. intros text Ht.
      apply list_elem_of_fmap in Ht as ([s d] & -> & Hx).
      apply slice_to_subseteq, sorted_subseteq, elem_of_zip_r in Hx.
      apply mapM_Ok in Et.
      destruct (Forall2_elem_of_r _ _ _ _ Et Hx) as (c & Hc & Hi).
      unfold Realtime.item1 in Hi.
      destruct (c !! 1%nat) as [ch|] eqn:Ec; [|done]. injection Hi as <-.
      by exists c, ch.
  - intros candidates -> Hshort. simpl.
    destruct (mapM Realtime.item1 candidates) as [texts|e] eqn:Et; simpl.
    + exfalso. apply Hshort. apply mapM_Ok in Et. clear Hshort.
      induction Et as [|c y l r Hi _ IH]; constructor; [|done].
      unfold Realtime.item1 in Hi.
      destruct (c !! 1%nat) as [ch|] eqn:Ec; [|done].
      apply lookup_lt_Some in Ec. lia.
    + apply mapM_Raise in Et as (c & _ & Hi). unfold Realtime.item1 in Hi.
      destruct (c !! 1%nat); [done|]. by injection Hi as <-.
  - by intros e ->.
Qed.

Lemma retrieve_and_rerank_context_witness :
  exists candidates,
    RetrieverTail.hybrid_search two_passages returns_policy 8 = Ok candidates
    /\ Forall (fun text =>
                 exists c ch, c ∈ candidates /\ c !! 1%nat = Some ch
                              /\ text = [ch]) [py "h"; py "e"].
Proof.
  destruct (proj1 (retrieve_and_rerank_context bare_env [] returns_policy)
              [py "h"; py "e"]) as (candidates & H1 & _ & H2);
    [by vm_compute|].
  exists candidates. exact (conj H1 H2).
Defined.

End RetrievalMore.

(** ** More on post-processing *)

Section PostprocessMore.
Import Postprocess.

(** The output, as the words of its shortened sentences. *)
Lemma postprocess_out_words (text : str) (n : Z) :
  (0 <= n)%Z -> split text <> [] ->
  let gs := map (shorten_group (Z.to_nat n)) (groups (split text)) in
  postprocess_for_voice text n = join [space] (concat gs)
  /\ Forall is_word (concat gs)
  /\ well_grouped gs.
Proof.
  intros Hn Hne gs.
  assert (well_grouped gs) as Hwg.
  { by apply well_grouped_shorten, groups_well_grouped. }
  split; [|split; [|done]].
  - rewrite (postprocess_words text n Hn). fold gs.
    apply join_concat. by apply well_grouped_nonempty.
  - apply Forall_concat. unfold gs. rewrite Forall_map.
    pose proof (groups_words _ (split_words text)) as H.
    eapply Forall_impl; [exact H|].
    intros g Hg. by apply shorten_group_words.
Qed.

Lemma postprocess_no_words (text : str) (n : Z) :
  split text = [] ->
  postprocess_for_voice text n = if (n <? 0)%Z then py "..." else [].
Proof.
  intros Hs. unfold postprocess_for_voice.
  rewrite strip_collapse_ws, Hs. simpl. unfold shorten. simpl.
  change (Z.of_nat 0) with 0%Z. destruct (n <? 0)%Z eqn:E; [|done].
  unfold slice_to. rewrite E. by rewrite take_nil.
Qed.

Lemma shorten_group_length (n : nat) (g : list str) :
  length (shorten_group n g) <= Nat.max 1 n
  /\ (g <> [] -> length (shorten_group n g) <= length g).
Proof.
  unfold shorten_group. destruct (Nat.ltb_spec n (length g)).
  - rewrite add_ellipsis_length, length_take. split; [lia|].
    destruct g; [done|]. simpl in *. lia.
  - split; lia.
Qed.

(** X8: at a bound that is not negative, the output has one sentence for
    each sentence of the normalised input, in the same order: the input
    sentence itself when it has no more words than the bound, and
    otherwise its first [max_sentence_words] words followed by "...".  No
    sentence of the output has more words than the bound, or than one word
    when the bound is 0. *)
Theorem postprocess_sentence_by_sentence (text : str) (max_sentence_words : Z) :
  (0 <= max_sentence_words)%Z ->
  let sentences_in := re_split (InText false) (strip (collapse_ws text)) in
  let sentences_out :=
    re_split (InText false) (postprocess_for_voice text max_sentence_words) in
  Forall2
    (fun o i =>
       (Z.of_nat (length (split i)) <= max_sentence_words)%Z /\ o = i
       \/ (max_sentence_words < Z.of_nat (length (split i)))%Z
          /\ o = join [space] (take (Z.to_nat max_sentence_words) (split i))
                 ++ py "...")
    sentences_out sentences_in
  /\ Forall (fun o => (Z.of_nat (length (split o))
                       <= Z.max 1 max_sentence_words)%Z)
            sentences_out.
Proof.
  intros Hn sentences_in sentences_out. subst sentences_in sentences_out.
  rewrite strip_collapse_ws, (re_split_join _ _ (split_words text)).
  destruct (split text) as [|w ws] eqn:Es.
  { rewrite (postprocess_no_words text _ Es).
    destruct (Z.ltb_spec max_sentence_words 0); [lia|]. simpl.
    split; repeat constructor; simpl; lia. }
  destruct (postprocess_out_words text max_sentence_words Hn) as (-> & Hws & Hwg);
    [by rewrite Es|].
  rewrite Es in *. rewrite re_split_join, groups_of_concat by done.
  pose proof (groups_words (w :: ws)) as Hg.
  rewrite <- Es in Hg at 1. specialize (Hg (split_words text)).
  clear Hws Hwg. split.
  - induction Hg as [|g gs Hg Hgs IH]; [constructor|].
    simpl. constructor; [|done].
    rewrite split_join by done. unfold shorten_group.
    destruct (Nat.ltb_spec (Z.to_nat max_sentence_words) (length g)).
    + right. split; [lia|]. symmetry. apply join_add_ellipsis.
    + left. split; [lia|done].
  - induction Hg as [|g gs Hg Hgs IH]; [constructor|].
    simpl. constructor; [|done].
    rewrite split_join by by apply shorten_group_words.
    pose proof (shorten_group_length (Z.to_nat max_sentence_words) g). lia.
Qed.

Lemma postprocess_sentence_by_sentence_witness :
  Forall (fun o => (Z.of_nat (length (split o)) <= Z.max 1 3)%Z)
    (Postprocess.re_split (Postprocess.InText false)
       (Postprocess.postprocess_for_voice
          (py "Hello there. This is a very long sentence indeed!  ok? yes") 3)).
Proof.
  apply (postprocess_sentence_by_sentence
           (py "Hello there. This is a very long sentence indeed!  ok? yes") 3).
  lia.
Defined.

(** X9: at a bound that is not negative, the output is normalised: its
    words are one space apart and no white space leads or trails it, so
    that normalising it again changes nothing. *)
Theorem postprocess_output_normalised (text : str) (max_sentence_words : Z) :
  (0 <= max_sentence_words)%Z ->
  strip (collapse_ws (postprocess_for_voice text max_sentence_words))
  = postprocess_for_voice text max_sentence_words
  /\ postprocess_for_voice text max_sentence_words
     = join [space] (split (postprocess_for_voice text max_sentence_words)).
Proof.
  intros Hn. rewrite strip_collapse_ws.
  assert (postprocess_for_voice text max_sentence_words
          = join [space] (split (postprocess_for_voice text max_sentence_words)))
    as E; [|by rewrite <- E].
  destruct (split text) as [|w ws] eqn:Es.
  { rewrite (postprocess_no_words text _ Es).
    by destruct (Z.ltb_spec max_sentence_words 0); [lia|]. }
  destruct (postprocess_out_words text max_sentence_words Hn) as (-> & Hws & _);
    [by rewrite Es|].
  by rewrite split_join.
Qed.

Lemma postprocess_output_normalised_witness :
  Postprocess.strip (Postprocess.collapse_ws
    (Postprocess.postprocess_for_voice (py "  a  b c.   d ") 2))
  = Postprocess.postprocess_for_voice (py "  a  b c.   d ") 2.
Proof.
  apply (postprocess_output_normalised (py "  a  b c.   d ") 2). lia.
Defined.

Lemma groups_length_le (ws : list str) :
  Forall (fun g => length g <= length ws) (groups ws).
Proof.
  pose proof (groups_concat ws) as H. revert H.
  generalize (groups ws). intros gs <-.
  induction gs as [|g gs IH]; [constructor|]. simpl. constructor.
  - rewrite length_app. lia.
  - eapply Forall_impl; [exact IH|]. intros g'. simpl. rewrite length_app. lia.
Qed.

(** X10: a bound that is at least the number of words of the text cuts
    nothing: the output is the words of the text joined by single spaces. *)
Theorem postprocess_large_bound (text : str) (max_sentence_words : Z) :
  (Z.of_nat (length (split text)) <= max_sentence_words)%Z ->
  postprocess_for_voice text max_sentence_words = join [space] (split text).
Proof.
  intros Hn. assert (0 <= max_sentence_words)%Z as H0 by lia.
  destruct (split text) as [|w ws] eqn:Es.
  { rewrite (postprocess_no_words text _ Es).
    by destruct (Z.ltb_spec max_sentence_words 0); [lia|]. }
  rewrite (postprocess_words text _ H0), Es.
  assert (map (shorten_group (Z.to_nat max_sentence_words)) (groups (w :: ws))
          = groups (w :: ws)) as ->.
  { pose proof (groups_length_le (w :: ws)) as H.
    induction H as [|g gs Hg _ IH]; [done|]. simpl. rewrite IH. f_equal.
    unfold shorten_group.
    destruct (Nat.ltb_spec (Z.to_nat max_sentence_words) (length g)); [lia|done]. }
  rewrite join_concat, groups_concat; [done|].
  by apply well_grouped_nonempty, groups_well_grouped.
Qed.

Lemma postprocess_large_bound_witness :
  Postprocess.postprocess_for_voice (py " It  is late.  Go home! ") 18
  = py "It is late. Go home!".
Proof.
  rewrite (postprocess_large_bound (py " It  is late.  Go home! ") 18).
  - reflexivity.
  - vm_compute. discriminate.
Defined.

(** X11: a text without a word, empty or all white space, comes back as
    the empty string at a bound that is not negative, and as "..." at a
    negative bound. *)
Theorem postprocess_blank_text (text : str) (max_sentence_words : Z) :
  Forall (fun c => is_space c = true) text ->
  postprocess_for_voice text max_sentence_words
  = if (max_sentence_words <? 0)%Z then py "..." else [].
Proof.
  intros Hsp. apply postprocess_no_words.
  induction Hsp as [|c s Hc _ IH]; [done|]. simpl. by rewrite Hc.
Qed.

Lemma postprocess_blank_text_witness :
  Postprocess.postprocess_for_voice (py "   ") 18 = []
  /\ Postprocess.postprocess_for_voice (py "   ") (-2) = py "...".
Proof.
  split.
  - apply (postprocess_blank_text (py "   ") 18). by repeat constructor.
  - apply (postprocess_blank_text (py "   ") (-2)). by repeat constructor.
Defined.

(** X12: at a bound that is not negative the output never has more words
    than the input. *)
Theorem postprocess_word_count (text : str) (max_sentence_words : Z) :
  (0 <= max_sentence_words)%Z ->
  length (split (postprocess_for_voice text max_sentence_words))
  <= length (split text).
Proof.
  intros Hn. destruct (split text) as [|w ws] eqn:Es.
  { rewrite (postprocess_no_words text _ Es).
    by destruct (Z.ltb_spec max_sentence_words 0); [lia|]. }
  destruct (postprocess_out_words text max_sentence_words Hn) as (-> & Hws & _);
    [by rewrite Es|].
  rewrite split_join by done. rewrite Es in *. clear Hws.
  rewrite <- (groups_concat (w :: ws)) at 2.
  pose proof (well_grouped_nonempty _ (groups_well_grouped (w :: ws) ltac:(done)))
    as Hne.
  induction Hne as [|g gs Hg _ IH]; [done|]. simpl. rewrite !length_app.
  pose proof (shorten_group_length (Z.to_nat max_sentence_words) g) as [_ H].
  specialize (H Hg). lia.
Qed.

Lemma postprocess_word_count_witness :
  length (split (Postprocess.postprocess_for_voice (py "a b c d. e") 2))
  <= length (split (py "a b c d. e")).
Proof. apply (postprocess_word_count (py "a b c d. e") 2). lia. Defined.

End PostprocessMore.

(** ** More on the coordinator *)

Section RealtimeMore.
Import Realtime.
Context (env : Env).

Lemma done_turns_left (t : Task) : done t = true <-> turns_left (at_ t) = 0.
Proof. unfold done. by destruct (at_ t). Qed.

Lemma resume_turns_left h p now s :
  match resume env h p now s with
  | Goto s' => turns_left s' <= turns_left s - 1
  | Complete _ _ _ => True
  end.
Proof.
  destruct s; simpl; unfold try_or, mbind, result_bind, mret, result_ret;
    repeat case_match; simplify_eq; simpl; lia.
Qed.

Lemma step_turns_left (c : Coordinator) (ev : event) (id : nat) (t : Task) :
  tasks c !! id = Some t ->
  exists t', tasks (step env c ev) !! id = Some t'
             /\ turns_left (at_ t')
                <= turns_left (at_ t) - (if is_turn_of id ev then 1 else 0).
Proof.
  intros Ht. pose proof (lookup_lt_Some _ _ _ Ht) as Hlt.
  destruct ev as [p|j now]; simpl.
  - unfold handle_partial; simpl.
    assert (exists t', tasks c !! id = Some t'
                       /\ turns_left (at_ t') <= turns_left (at_ t) - 0) as H0.
    { exists t. split; [done|lia]. }
    destruct (_current_task c) as [cur|]; [|by rewrite lookup_app_l].
    destruct (tasks c !! cur) as [tc|] eqn:Ec; [|by rewrite lookup_app_l].
    destruct (done tc); [by rewrite lookup_app_l|].
    rewrite lookup_app_l by by rewrite length_insert.
    destruct (decide (cur = id)) as [->|Hne].
    + rewrite list_lookup_insert_eq by done. simplify_eq.
      exists (cancel t). split; [done|]. simpl. lia.
    + by rewrite list_lookup_insert_ne.
  - destruct (decide (j = id)) as [->|Hne].
    + rewrite bool_decide_eq_true_2 by done.
      unfold run_task. rewrite Ht. destruct (must_cancel t).
      * simpl. rewrite list_lookup_insert_eq by done. eexists. split; [done|].
        simpl. destruct (at_ t); simpl; lia.
      * pose proof (resume_turns_left (history c) (partial t) now (at_ t)) as Hr.
        destruct (resume _ _ _ _ _); simpl;
          rewrite list_lookup_insert_eq by done; eexists; (split; [done|]);
          simpl; lia.
    + rewrite bool_decide_eq_false_2 by done.
      exists t. split; [|lia].
      destruct (tasks c !! j) as [tj|] eqn:Ej.
      * destruct (run_task_tasks env c j now tj Ej) as [s ->].
        by rewrite list_lookup_insert_ne.
      * by rewrite run_task_missing.
Qed.

Lemma run_turns_left (evs : list event) (c : Coordinator) (id : nat) (t : Task) :
  tasks c !! id = Some t ->
  exists t', tasks (run env c evs) !! id = Some t'
             /\ turns_left (at_ t') <= turns_left (at_ t) - turns_of id evs.
Proof.
  revert c t. induction evs as [|ev evs IH]; intros c t Ht.
  - exists t. split; [done|]. unfold turns_of. simpl. lia.
  - destruct (step_turns_left c ev id t Ht) as (t1 & Ht1 & H1).
    destruct (IH _ _ Ht1) as (t2 & Ht2 & H2).
    exists t2. split; [done|]. unfold turns_of in *. rewrite filter_cons.
    case_decide as Hd.
    + rewrite Hd in H1. simpl length. lia.
    + destruct (is_turn_of id ev); [done|]. lia.
Qed.

(** X15: a Run is over after six turns of its task at most: whatever the
    collaborators answer and whatever else the schedule holds (other
    tasks' turns, new transcripts), a task that has been resumed six times
    is done.  A done task is finished, cancelled or failed; it is never
    left suspended. *)
Theorem run_is_done_after_six_turns
    (c : Coordinator) (id : nat) (t : Task) (evs : list event) :
  tasks c !! id = Some t -> 6 <= turns_of id evs ->
  exists t', tasks (run env c evs) !! id = Some t' /\ done t' = true.
Proof.
  intros Ht Hsix. destruct (run_turns_left evs c id t Ht) as (t' & Ht' & Hle).
  exists t'. split; [done|]. apply done_turns_left.
  assert (turns_left (at_ t) <= 6) by (destruct (at_ t); simpl; lia). lia.
Qed.

Lemma step_history_grows (c : Coordinator) (ev : event) :
  (history c `prefix_of` history (step env c ev))
  /\ (runs (metrics c) <= runs (metrics (step env c ev)))%Z
  /\ (Z.of_nat (length (history (step env c ev)))
        - 2 * runs (metrics (step env c ev))
      = Z.of_nat (length (history c)) - 2 * runs (metrics c))%Z.
Proof.
  destruct ev as [p|id now]; simpl; [done|].
  destruct (run_task_effect env c id now) as [[_ H]|(_ & -> & ->)]; [|done].
  destruct H as (t & st & rt & a & _ & _ & _ & _ & -> & ->).
  split; [by eexists|]. simpl. rewrite length_app. simpl. lia.
Qed.

(** X16: the history is append-only and the run count never goes down:
    along any schedule, from any state, the history before is a prefix of
    the history after; and the history holds exactly two entries for each
    run that the metrics have counted since. *)
Theorem history_is_append_only (c : Coordinator) (evs : list event) :
  (history c `prefix_of` history (run env c evs))
  /\ (runs (metrics c) <= runs (metrics (run env c evs)))%Z
  /\ (Z.of_nat (length (history (run env c evs)))
      = Z.of_nat (length (history c))
        + 2 * (runs (metrics (run env c evs)) - runs (metrics c)))%Z.
Proof.
  revert c. induction evs as [|ev evs IH]; intros c; simpl.
  - split; [done|]. lia.
  - destruct (step_history_grows c ev) as (H1 & H2 & H3).
    destruct (IH (step env c ev)) as (H4 & H5 & H6).
    split; [by etrans|]. split; lia.
Qed.

Lemma done_stays_done (c : Coordinator) (id : nat) (now : Q) (t t' : Task) :
  tasks c !! id = Some t -> tasks (run_task env c id now) !! id = Some t' ->
  done t = true -> done t' = true.
Proof.
  intros Ht Ht' Hd.
  destruct (step_turns_left c (Resume id now) id t Ht) as (t1 & Ht1 & Hle).
  simpl in Ht1. simplify_eq. apply done_turns_left.
  apply done_turns_left in Hd. lia.
Qed.

Lemma handle_partial_tasks (c : Coordinator) (p : str) :
  length (tasks (handle_partial c p)) = S (length (tasks c))
  /\ forall id t0, tasks c !! id = Some t0 ->
       tasks (handle_partial c p) !! id
       = Some (if decide (_current_task c = Some id)
               then (if done t0 then t0 else cancel t0) else t0).
Proof.
  unfold handle_partial; simpl.
  destruct (_current_task c) as [cur|] eqn:Ecur.
  2:{ split; [rewrite length_app; simpl; lia|]. intros id t0 Ht.
      rewrite lookup_app_l by by eapply lookup_lt_Some. by rewrite Ht. }
  destruct (tasks c !! cur) as [tc|] eqn:Ec.
  2:{ split; [rewrite length_app; simpl; lia|]. intros id t0 Ht.
      rewrite lookup_app_l by by eapply lookup_lt_Some.
      rewrite Ht. case_decide; [|done]. congruence. }
  destruct (done tc) eqn:Edc.
  { split; [rewrite length_app; simpl; lia|]. intros id t0 Ht.
    rewrite lookup_app_l by by eapply lookup_lt_Some.
    rewrite Ht. case_decide; [|done]. simplify_eq. by rewrite Edc. }
  split; [rewrite length_app, length_insert; simpl; lia|]. intros id t0 Ht.
  pose proof (lookup_lt_Some _ _ _ Ht).
  rewrite lookup_app_l by by rewrite length_insert.
  case_decide as Hd.
  - simplify_eq. rewrite list_lookup_insert_eq by done. by rewrite Edc.
  - rewrite list_lookup_insert_ne by congruence. done.
Qed.

Lemma step_one_live (c : Coordinator) (ev : event) :
  (forall id t, tasks c !! id = Some t -> live t -> _current_task c = Some id) ->
  forall id t, tasks (step env c ev) !! id = Some t -> live t ->
               _current_task (step env c ev) = Some id.
Proof.
  intros Hinv id t Ht [Hd Hc]. destruct ev as [p|j now].
  - change (step env c (HandlePartial p)) with (handle_partial c p) in *.
    destruct (handle_partial_new_task c p) as [Hcur _].
    destruct (handle_partial_tasks c p) as [Hlen Hold].
    destruct (tasks c !! id) as [t0|] eqn:E0.
    + exfalso. rewrite (Hold id t0 E0) in Ht. injection Ht as <-.
      case_decide as Hd'.
      * destruct (done t0) eqn:Ed0; [congruence|done].
      * apply Hd'. by apply (Hinv id t0).
    + rewrite Hcur. f_equal. apply lookup_ge_None in E0.
      apply lookup_lt_Some in Ht. lia.
  - change (step env c (Resume j now)) with (run_task env c j now) in *.
    assert (_current_task (run_task env c j now) = _current_task c) as ->.
    { unfold run_task. destruct (tasks c !! j) as [tj|]; [|done].
      destruct (must_cancel tj); [done|]. by destruct (resume _ _ _ _ _). }
    destruct (tasks c !! j) as [tj|] eqn:Ej.
    2:{ rewrite run_task_missing in Ht by done. by apply (Hinv id t). }
    destruct (decide (j = id)) as [->|Hne].
    + apply (Hinv id tj Ej). split.
      * destruct (done tj) eqn:Edj; [|done].
        pose proof (done_stays_done c id now tj t Ej Ht Edj). congruence.
      * destruct (run_task_tasks env c id now tj Ej) as [s Hs].
        rewrite Hs, list_lookup_insert_eq in Ht by by eapply lookup_lt_Some.
        by simplify_eq.
    + destruct (run_task_tasks env c j now tj Ej) as [s Hs].
      rewrite Hs, list_lookup_insert_ne in Ht by done.
      by apply (Hinv id t).
Qed.

(** X17: one Run at a time.  In every state that a schedule reaches from
    the initial coordinator, a task that is neither done nor asked to
    cancel is the current task: every earlier Run that is still pending
    has been cancelled. *)
Theorem one_live_run (evs : list event) (id : nat) (t : Task) :
  tasks (run env init evs) !! id = Some t -> live t ->
  _current_task (run env init evs) = Some id.
Proof.
  assert (forall c,
    (forall id t, tasks c !! id = Some t -> live t ->
                  _current_task c = Some id) ->
    forall id t, tasks (run env c evs) !! id = Some t -> live t ->
                 _current_task (run env c evs) = Some id) as H.
  { induction evs as [|ev evs IH]; intros c Hinv; [done|]. simpl.
    apply IH. by apply step_one_live. }
  apply H. intros id' t' Ht'. done.
Qed.

Lemma at_stage_goto (c : Coordinator) (id : nat) (p : str) (now : Q) s s' :
  at_stage c id p s -> resume env (history c) p now s = Goto s' ->
  at_stage (run_task env c id now) id p s'
  /\ history (run_task env c id now) = history c
  /\ metrics (run_task env c id now) = metrics c.
Proof.
  unfold at_stage. intros Ht Hr. unfold run_task. rewrite Ht. simpl.
  rewrite Hr. simpl. rewrite list_lookup_insert_eq; [done|].
  by eapply lookup_lt_Some.
Qed.

(** X18: a Run that nobody cancels, with a generator that answers both
    prompts, a retrieval step that returns and a final speech call that
    returns, is finished by its sixth turn.  The history then ends with the
    transcript and the answer, which is the generator's reply to the prompt
    built from what retrieval returned on the history as it was,
    post-processed at 18 words; the metrics count one more run.  A failing
    filler speech call changes none of this. *)
Theorem uncancelled_run_finishes
    (c : Coordinator) (id : nat) (p filler_reply reply : str)
    (contexts : list str) (t1 t2 t3 t4 t5 t6 : Q) :
  at_stage c id p Created ->
  get_llm_response env (filler_prompt p) = Ok filler_reply ->
  _retrieve_and_rerank env (history c) p = Ok contexts ->
  get_llm_response env (final_prompt contexts p) = Ok reply ->
  tts_speak env (Postprocess.postprocess_for_voice reply 18) = Ok () ->
  let c' := run env c [Resume id t1; Resume id t2; Resume id t3;
                       Resume id t4; Resume id t5; Resume id t6] in
  history c'
  = history c ++ [p; Postprocess.postprocess_for_voice reply 18]
  /\ runs (metrics c') = (runs (metrics c) + 1)%Z
  /\ stage_of c' id = Some Finished.
Proof.
  intros H0 Hf Hctx Hr Hs. simpl.
  destruct (at_stage_goto c id p t1 _ _ H0 eq_refl) as (H1 & Hh1 & Hm1).
  set (c1 := run_task env c id t1) in *.
  destruct (at_stage_goto c1 id p t2 _ _ H1
              ltac:(simpl; rewrite Hf; reflexivity)) as (H2 & Hh2 & Hm2).
  set (c2 := run_task env c1 id t2) in *.
  assert (history c2 = history c) as Hh' by congruence.
  destruct (at_stage_goto c2 id p t3 _ _ H2
              ltac:(simpl; rewrite Hh', Hctx; reflexivity))
    as (H3 & Hh3 & Hm3).
  set (c3 := run_task env c2 id t3) in *.
  destruct (at_stage_goto c3 id p t4 _ _ H3
              ltac:(simpl; rewrite Hr; reflexivity)) as (H4 & Hh4 & Hm4).
  set (c4 := run_task env c3 id t4) in *.
  destruct (at_stage_goto c4 id p t5
              (AwaitFillerPlay t1 (t3 - t1)
                 (first_field "."%char filler_reply ++ py ".")
                 (Postprocess.postprocess_for_voice reply 18))
              (AwaitSpeak t1 (t3 - t1)
                 (Postprocess.postprocess_for_voice reply 18)) H4)
    as (H5 & Hh5 & Hm5).
  { simpl. unfold try_or, mbind, result_bind, mret, result_ret.
    repeat case_match; by simplify_eq. }
  set (c5 := run_task env c4 id t5) in *.
  unfold at_stage in H5. unfold stage_of, run_task. rewrite H5. simpl.
  rewrite Hs. simpl.
  rewrite list_lookup_insert_eq by by eapply lookup_lt_Some.
  split; [|split; [|done]]; congruence.
Qed.

Lemma first_field_spec (sep : ascii) (s : str) :
  (sep ∉ first_field sep s)
  /\ (first_field sep s `prefix_of` s)
  /\ (sep ∉ s -> first_field sep s = s)
  /\ (sep ∈ s -> (first_field sep s ++ [sep]) `prefix_of` s).
Proof.
  induction s as [|c s (IH1 & IH2 & IH3 & IH4)]; simpl.
  - split; [apply not_elem_of_nil|]. split; [done|]. split; [done|].
    intros H. by apply elem_of_nil in H.
  - destruct (decide (c = sep)) as [->|Hne].
    + split; [apply not_elem_of_nil|]. split; [apply prefix_nil|].
      split; [intros H; exfalso; apply H; left|].
      intros _. by exists s.
    + split; [|split; [|split]].
      * rewrite not_elem_of_cons. split; [congruence|done].
      * by apply prefix_cons.
      * intros H. rewrite not_elem_of_cons in H. f_equal. apply IH3, H.
      * intros H. apply elem_of_cons in H as [H|H]; [congruence|].
        simpl. by apply prefix_cons, IH4.
Qed.

(** X19: the filler that a Run speaks is the first sentence of the
    generator's reply: the reply up to its first full stop, with a full
    stop put back, or the whole reply with a full stop added when it has
    none.  The filler has exactly one full stop, at its end. *)
Theorem filler_is_first_sentence
    (c : Coordinator) (id : nat) (p reply : str) (start_ts now : Q) :
  at_stage c id p (AwaitFiller start_ts) ->
  get_llm_response env (filler_prompt p) = Ok reply ->
  exists head : str,
    stage_of (run_task env c id now) id
    = Some (AwaitRetrieval start_ts (head ++ py "."))
    /\ ("."%char ∉ head)
    /\ ("."%char ∈ reply -> (head ++ py ".") `prefix_of` reply)
    /\ ("."%char ∉ reply -> head = reply).
Proof.
  intros Hs Hr. exists (first_field "."%char reply).
  destruct (first_field_spec "."%char reply) as (H1 & H2 & H3 & H4).
  split; [|done].
  destruct (at_stage_goto c id p now _ _ Hs
              ltac:(simpl; rewrite Hr; reflexivity)) as (H & _).
  unfold at_stage in H. unfold stage_of. by rewrite H.
Qed.

End RealtimeMore.

Lemma run_is_done_after_six_turns_witness :
  exists t',
    Realtime.tasks
      (Realtime.run failing_llm_env
         (Realtime.handle_partial Realtime.init returns_policy)
         [Realtime.Resume 0 1; Realtime.Resume 0 2;
          Realtime.HandlePartial (py "tell me"); Realtime.Resume 0 3;
          Realtime.Resume 1 3; Realtime.Resume 0 4; Realtime.Resume 0 5;
          Realtime.Resume 0 6]) !! 0%nat = Some t'
    /\ Realtime.done t' = true.
Proof.
  apply (run_is_done_after_six_turns failing_llm_env
           (Realtime.handle_partial Realtime.init returns_policy) 0
           {| Realtime.partial := returns_policy;
              Realtime.at_ := Realtime.Created;
              Realtime.must_cancel := false |}).
  - reflexivity.
  - vm_compute. lia.
Defined.

Lemma one_live_run_witness :
  Realtime._current_task
    (Realtime.run bare_env Realtime.init
       [Realtime.HandlePartial (py "tell me"); Realtime.Resume 0 1;
        Realtime.HandlePartial returns_policy]) = Some 1%nat.
Proof.
  apply (one_live_run bare_env
           [Realtime.HandlePartial (py "tell me"); Realtime.Resume 0 1;
            Realtime.HandlePartial returns_policy] 1
           {| Realtime.partial := returns_policy;
              Realtime.at_ := Realtime.Created;
              Realtime.must_cancel := false |}).
  - reflexivity.
  - split; reflexivity.
Defined.

Lemma uncancelled_run_finishes_witness :
  Realtime.history
    (Realtime.run bare_env (Realtime.handle_partial Realtime.init returns_policy)
       [Realtime.Resume 0 1; Realtime.Resume 0 2; Realtime.Resume 0 3;
        Realtime.Resume 0 4; Realtime.Resume 0 5; Realtime.Resume 0 6])
  = [returns_policy;
     Postprocess.postprocess_for_voice Realtime.unavailable 18].
Proof.
  apply (uncancelled_run_finishes bare_env
           (Realtime.handle_partial Realtime.init returns_policy) 0
           returns_policy Realtime.unavailable Realtime.unavailable
           [py "h"; py "e"] 1 2 3 4 5 6); reflexivity.
Defined.

Lemma filler_is_first_sentence_witness :
  exists head : str,
    stage_of (Realtime.run_task bare_env
                (Realtime.run bare_env
                   (Realtime.handle_partial Realtime.init returns_policy)
                   [Realtime.Resume 0 1]) 0 2) 0
    = Some (Realtime.AwaitRetrieval 1 (head ++ py "."))
    /\ ("."%char ∉ head).
Proof.
  destruct (filler_is_first_sentence bare_env
              (Realtime.run bare_env
                 (Realtime.handle_partial Realtime.init returns_policy)
                 [Realtime.Resume 0 1]) 0 returns_policy
              Realtime.unavailable 1 2 eq_refl eq_refl)
    as (head & H1 & H2 & _).
  exists head. exact (conj H1 H2).
Defined.

(** ** rag/ingest.py: chunk_text *)

Section IngestFacts.
Import Ingest.

Lemma slice_window {A} (l : list A) (i m : Z) :
  (0 <= i < Z.of_nat (length l))%Z -> (0 < m)%Z ->
  slice i (i + m) l = take (Z.to_nat m) (drop (Z.to_nat i) l).
Proof.
  intros Hi Hm. unfold slice.
  destruct (Z.ltb_spec i 0); [lia|]. destruct (Z.ltb_spec (i + m) 0); [lia|].
  rewrite (Z.min_l i) by lia.
  destruct (Z.le_ge_cases (i + m) (Z.of_nat (length l))).
  - rewrite Z.min_l by lia. do 2 f_equal. lia.
  - rewrite Z.min_r by lia.
    rewrite (take_ge _ (Z.to_nat m)) by (rewrite length_drop; lia).
    apply take_ge. rewrite length_drop. lia.
Qed.

Section Loop.
Context (words : list str) (max_words stride : Z).
Let n : Z := Z.of_nat (length words).
Let step : Z := (max_words - stride)%Z.

(** With a stride that is neither negative nor as large as the window,
    the loop ends, and its chunks are the windows at the multiples of
    [max_words - stride] from [i] on, up to the first that reaches the
    end of the words. *)
Lemma chunk_loop_windows (fuel : nat) (i : Z) :
  (0 <= stride < max_words)%Z -> (0 <= i)%Z ->
  (Z.to_nat (n - i) < fuel)%nat ->
  exists m : nat,
    chunk_loop fuel words max_words stride i
    = Some (map (fun j : nat => window words max_words (i + Z.of_nat j * step))
                (seq 0 m))
    /\ (n <= i -> m = 0%nat)%Z
    /\ (i < n ->
        (1 <= m)%nat
        /\ n <= i + (Z.of_nat m - 1) * step + max_words
        /\ forall j : nat, (j < m)%nat ->
             i + Z.of_nat j * step < n
             /\ ((j < m - 1)%nat -> i + Z.of_nat j * step + max_words < n))%Z.
Proof.
  intros Hs. revert i. induction fuel as [|fuel IH]; intros i Hi Hfuel; [lia|].
  simpl. fold n. destruct (Z.ltb_spec i n) as [Hlt|Hge].
  2:{ exists 0%nat. split; [done|]. split; [done|lia]. }
  rewrite slice_window by (fold n; lia).
  destruct (Z.leb_spec n (i + max_words)) as [Hend|Hmore].
  - exists 1%nat. split.
    { cbn [seq map]. unfold window.
      by replace (i + Z.of_nat 0 * step)%Z with i by lia. }
    split; [lia|]. intros _. split; [lia|]. split; [lia|].
    intros j Hj. assert (j = 0%nat) as -> by lia. split; lia.
  - destruct (IH (i + (max_words - stride))%Z) as (m & -> & _ & Hm);
      [fold step; lia|lia|].
    fold step in Hm. destruct Hm as (Hm1 & Hm2 & Hm3); [unfold step; lia|].
    exists (S m). split.
    { cbn [seq map]. unfold fmap, option_fmap, option_map. f_equal. f_equal.
      - unfold window. by replace (i + Z.of_nat 0 * step)%Z with i by lia.
      - rewrite <- fmap_S_seq. rewrite <- list_fmap_compose.
        apply list_fmap_ext. intros k j _. simpl. f_equal. unfold step. lia. }
    split; [lia|]. intros _. split; [lia|]. split; [lia|].
    intros [|j] Hj.
    + split; [lia|]. intros _. lia.
    + destruct (Hm3 j ltac:(lia)) as [H1 H2]. split; [lia|].
      intros Hj'. specialize (H2 ltac:(lia)). lia.
Qed.

(** With a stride at least as large as the window and more words than
    one window holds, the index never moves forward and the loop never
    ends. *)
Lemma chunk_loop_diverges (fuel : nat) (i : Z) :
  words <> [] -> (max_words < n)%Z -> (max_words <= stride)%Z -> (i <= 0)%Z ->
  chunk_loop fuel words max_words stride i = None.
Proof.
  intros Hne Hn Hs. revert i. induction fuel as [|fuel IH]; intros i Hi; [done|].
  simpl. fold n.
  assert (0 < n)%Z by (unfold n; destruct words; [done|simpl; lia]).
  destruct (Z.ltb_spec i n); [|lia].
  destruct (Z.leb_spec n (i + max_words)); [lia|].
  by rewrite IH by lia.
Qed.

End Loop.

Lemma window_words (words : list str) (max_words start : Z) :
  Forall is_word words ->
  split (window words max_words start)
  = take (Z.to_nat max_words) (drop (Z.to_nat start) words).
Proof.
  intros Hw. unfold window. apply split_join.
  by apply Forall_take, Forall_drop.
Qed.

(** X20: with [0 <= stride < max_words], [chunk_text] ends, within as
    many iterations as the text has words, and returns the windows of
    [max_words] words that start at the multiples of
    [max_words - stride]: the last window is the first that reaches the
    end of the text, so consecutive chunks share [stride] words. *)
Theorem chunk_text_windows
    (fuel : nat) (text : str) (max_words stride : Z) :
  (0 <= stride < max_words)%Z -> length (split text) < fuel ->
  exists m : nat,
    chunk_text fuel text max_words stride
    = Some (map (fun j : nat =>
                   window (split text) max_words
                          (Z.of_nat j * (max_words - stride)))
                (seq 0 m))
    /\ (split text = [] -> m = 0%nat)
    /\ (split text <> [] ->
        (1 <= m)%nat
        /\ (Z.of_nat (length (split text))
            <= (Z.of_nat m - 1) * (max_words - stride) + max_words)%Z
        /\ forall j : nat, (j < m - 1)%nat ->
             (Z.of_nat j * (max_words - stride) + max_words
              < Z.of_nat (length (split text)))%Z).
Proof.
  intros Hs Hfuel. unfold chunk_text.
  destruct (chunk_loop_windows (split text) max_words stride fuel 0 Hs)
    as (m & -> & H0 & H1); [lia|lia|].
  exists m. split; [done|]. split.
  - intros E. apply H0. rewrite E. simpl. lia.
  - intros Hne. destruct H1 as (Hm & Hlast & Hall).
    { destruct (split text); [done|simpl; lia]. }
    split; [done|]. split; [lia|]. intros j Hj.
    destruct (Hall j ltac:(lia)) as [_ H]. specialize (H Hj). lia.
Qed.

Lemma chunk_text_windows_witness :
  Ingest.chunk_text 6 (py "a b c d e") 3 1
  = Some [py "a b c"; py "c d e"].
Proof.
  destruct (chunk_text_windows 6 (py "a b c d e") 3 1 ltac:(lia))
    as (m & -> & _ & Hm); [vm_compute; lia|].
  destruct Hm as (Hm1 & Hm2 & Hm3); [by vm_compute|].
  assert (m = 2%nat) as ->.
  { change (Z.of_nat (length (split (py "a b c d e")))) with 5%Z in *.
    destruct m as [|[|[|m]]]; [lia|lia|done|].
    specialize (Hm3 1%nat ltac:(lia)). lia. }
  reflexivity.
Defined.

(** X21: with [0 <= stride < max_words], every chunk holds at least one
    word and at most [max_words] words, and every word of the text is in
    some chunk. *)
Theorem chunk_text_covers
    (fuel : nat) (text : str) (max_words stride : Z) (chunks : list str) :
  (0 <= stride < max_words)%Z ->
  chunk_text fuel text max_words stride = Some chunks ->
  Forall (fun c => 1 <= length (split c)
                   /\ (Z.of_nat (length (split c)) <= max_words)%Z) chunks
  /\ forall w, w ∈ split text -> exists c, c ∈ chunks /\ w ∈ split c.
Proof.
  intros Hs Hc. unfold chunk_text in Hc.
  set (words := split text) in *.
  assert (Forall is_word words) as Hw by apply split_words.
  assert (exists fuel', length words < fuel'
                        /\ chunk_loop fuel' words max_words stride 0
                           = Some chunks) as (fuel' & Hf' & Hc').
  { destruct (chunk_loop_windows words max_words stride
                (fuel + S (length words)) 0 Hs) as (m & Hm & _); [lia|lia|].
    exists (fuel + S (length words))%nat. split; [lia|].
    clear Hm. revert Hc. generalize 0%Z. generalize chunks.
    induction fuel as [|fuel IH]; intros chunks' i; [done|].
    simpl. destruct (_ <? _)%Z; [|done]. destruct (_ <=? _)%Z; [done|].
    destruct (chunk_loop fuel words max_words stride _) as [r|] eqn:E; [|done].
    by rewrite (IH r _ E). }
  destruct (chunk_loop_windows words max_words stride fuel' 0 Hs)
    as (m & Hm & H0 & H1); [lia|lia|].
  rewrite Hc' in Hm. injection Hm as ->.
  set (n := Z.of_nat (length words)) in *.
  set (step := (max_words - stride)%Z) in *.
  split.
  - apply Forall_forall. intros c Hin.
    apply list_elem_of_fmap in Hin as (j & -> & Hj).
    apply elem_of_seq in Hj.
    destruct H1 as (_ & _ & Hall).
    { destruct (Z.lt_ge_cases 0 n); [done|]. specialize (H0 ltac:(lia)). lia. }
    destruct (Hall j ltac:(lia)) as [Hstart _].
    rewrite window_words by done. rewrite length_take, length_drop.
    fold words. unfold n in *. lia.
  - intros w Hin. apply list_elem_of_lookup in Hin as [p Hp].
    pose proof (lookup_lt_Some _ _ _ Hp) as Hlt.
    destruct H1 as (Hm1 & Hlast & Hall); [unfold n; lia|].
    assert (forall d k : nat, (k + d = m - 1)%nat ->
              (Z.of_nat k * step <= Z.of_nat p)%Z ->
              exists j : nat, (j < m)%nat
                /\ (Z.of_nat j * step <= Z.of_nat p
                    < Z.of_nat j * step + max_words)%Z) as Hcov.
    { induction d as [|d IH]; intros k Hk Hp'.
      - exists k. split; [lia|]. assert (k = (m - 1)%nat) as -> by lia.
        replace (Z.of_nat (m - 1)) with (Z.of_nat m - 1)%Z in * by lia.
        unfold n in *. lia.
      - destruct (Z.lt_ge_cases (Z.of_nat p) (Z.of_nat k * step + max_words)).
        + exists k. split; [lia|lia].
        + apply (IH (S k)); [lia|].
          replace (Z.of_nat (S k) * step)%Z
            with (Z.of_nat k * step + step)%Z by lia.
          unfold step in *. lia. }
    destruct (Hcov (m - 1)%nat 0%nat ltac:(lia) ltac:(lia)) as (j & Hj & Hjp).
    exists (window words max_words (0 + Z.of_nat j * step)). split.
    + apply list_elem_of_fmap. exists j. split; [done|]. apply elem_of_seq. lia.
    + rewrite window_words by done.
      apply list_elem_of_lookup.
      exists (p - Z.to_nat (Z.of_nat j * step))%nat.
      rewrite lookup_take_lt by lia. rewrite lookup_drop.
      rewrite <- Hp. f_equal. unfold step in *. lia.
Qed.

Lemma chunk_text_covers_witness :
  exists c, c ∈ [py "a b c"; py "c d e"] /\ py "d" ∈ split c.
Proof.
  destruct (chunk_text_covers 6 (py "a b c d e") 3 1
              [py "a b c"; py "c d e"] ltac:(lia) eq_refl) as [_ H].
  apply H. vm_compute. do 3 right. left.
Defined.

(** X22: a text with no more words than [max_words] gives one chunk, its
    words joined by single spaces, which is the text with its white space
    normalised; a text without a word gives no chunk.  This holds for
    every stride. *)
Theorem chunk_text_short
    (fuel : nat) (text : str) (max_words stride : Z) :
  (Z.of_nat (length (split text)) <= max_words)%Z ->
  chunk_text (S fuel) text max_words stride
  = Some (match split text with
          | [] => []
          | _ :: _ => [Postprocess.strip (Postprocess.collapse_ws text)]
          end).
Proof.
  intros Hn. unfold chunk_text. rewrite strip_collapse_ws.
  destruct (split text) as [|w ws] eqn:E; [done|].
  cbn [chunk_loop].
  destruct (Z.ltb_spec 0 (Z.of_nat (length (w :: ws)))); [|simpl in *; lia].
  destruct (Z.leb_spec (Z.of_nat (length (w :: ws))) (0 + max_words)); [|lia].
  rewrite slice_window by (simpl in *; lia).
  rewrite drop_0, take_ge by lia. done.
Qed.

Lemma chunk_text_short_witness :
  Ingest.chunk_text 1 (py "  returns  are free ") 200 50
  = Some [py "returns are free"].
Proof.
  rewrite (chunk_text_short 0 (py "  returns  are free ") 200 50).
  - reflexivity.
  - vm_compute. discriminate.
Defined.

(** X23: with a stride that is at least [max_words], on a text of more
    than [max_words] words, [chunk_text] does not return: its index never
    moves forward, whatever number of iterations it is given. *)
Theorem chunk_text_never_returns
    (fuel : nat) (text : str) (max_words stride : Z) :
  split text <> [] ->
  (max_words < Z.of_nat (length (split text)))%Z ->
  (max_words <= stride)%Z ->
  chunk_text fuel text max_words stride = None.
Proof.
  intros Hne Hn Hs. unfold chunk_text. by apply chunk_loop_diverges.
Qed.

Lemma chunk_text_never_returns_witness :
  Ingest.chunk_text 1000 (py "a b c d e") 2 2 = None.
Proof.
  apply (chunk_text_never_returns 1000 (py "a b c d e") 2 2).
  - by vm_compute.
  - vm_compute. reflexivity.
  - lia.
Defined.

End IngestFacts.

(** ** app.py: get_identity_statement *)

Section AppFacts.
Import App Postprocess.

Lemma lstrip_starts (s : str) : starts_space (lstrip s) = false.
Proof.
  induction s as [|c s IH]; [done|]. simpl.
  destruct (is_space c) eqn:E; [done|]. simpl. by rewrite E.
Qed.

Lemma lstrip_ends (s : str) : ends_space s = false -> ends_space (lstrip s) = false.
Proof.
  induction s as [|c s IH]; [done|]. simpl. intros He.
  destruct (is_space c) eqn:E; [|done].
  destruct s as [|c' s]; [done|]. rewrite ends_space_cons in He by done. auto.
Qed.

(** What [strip] returns has no white space at either end, and a text
    without white space at either end is left as it is. *)
Lemma strip_ends (s : str) :
  starts_space (strip s) = false /\ ends_space (strip s) = false.
Proof.
  unfold strip. split.
  - rewrite starts_space_rev. apply lstrip_ends.
    rewrite <- starts_space_rev, rev_involutive. apply lstrip_starts.
  - rewrite <- starts_space_rev, rev_involutive. apply lstrip_starts.
Qed.

Lemma strip_fixed (s : str) :
  starts_space s = false -> ends_space s = false -> strip s = s.
Proof.
  intros Hs He. unfold strip. rewrite (lstrip_id s) by done.
  rewrite lstrip_id by by rewrite starts_space_rev.
  apply rev_involutive.
Qed.

Lemma scan_lines_silent (before after : list str) :
  Forall silent before -> scan_lines (before ++ after) = scan_lines after.
Proof.
  induction 1 as [|l ls Hl _ IH]; [done|].
  change ((l :: ls) ++ after) with (l :: (ls ++ after)).
  unfold silent in Hl. cbn [scan_lines] in *. rewrite IH.
  destruct (strip l); [done|].
  destruct (startswith (py "you are") _); [done|]. by destruct (orb _ _).
Qed.

Lemma replace_first_absent (old new s : str) :
  contains old s = false -> replace_first old new s = s.
Proof.
  induction s as [|c s IH]; simpl.
  - rewrite orb_false_r. by intros ->.
  - intros [H1 H2]%orb_false_elim. rewrite H1. by rewrite IH.
Qed.

(** X25: the first line of the prompt file that answers, when it reads
    "You are ..." once stripped, gives the statement "I am ..." with the
    same rest. *)
Theorem identity_statement_from_you_are
    (default_ : str) (before after : list str) (line rest : str) :
  Forall silent before ->
  strip line = py "You are" ++ rest ->
  get_identity_statement default_ (Some (before ++ line :: after))
  = py "I am" ++ rest.
Proof.
  intros Hb Hl. unfold get_identity_statement.
  rewrite scan_lines_silent by done. cbn [scan_lines]. rewrite Hl.
  change (py "You are" ++ rest) with ("Y"%char :: py "ou are" ++ rest) at 1.
  cbv iota.
  assert (lower (py "You are" ++ rest) = py "you are" ++ lower rest) as ->.
  { unfold lower. by rewrite map_app. }
  assert (startswith (py "you are") (py "you are" ++ lower rest) = true) as ->.
  { apply startswith_spec. by eexists. }
  assert (replace_first (py "You are") (py "I am") (py "You are" ++ rest)
          = py "I am" ++ rest) as ->.
  { assert (startswith (py "You are") (py "You are" ++ rest) = true) as E.
    { apply startswith_spec. by eexists. }
    unfold replace_first. destruct (py "You are" ++ rest) eqn:E'; [done|].
    rewrite E. rewrite <- E'. by rewrite drop_app_length. }
  rewrite strip_fixed; [done|done|].
  destruct (strip_ends line) as [_ He]. rewrite Hl in He.
  destruct rest as [|c rest]; [done|].
  rewrite ends_space_app in He by done. by rewrite ends_space_app.
Qed.

Lemma identity_statement_from_you_are_witness :
  App.get_identity_statement (py "I am Voice AI.")
    (Some [py "  "; py " You are a concise helper.  "; py "voice-first"])
  = py "I am a concise helper.".
Proof.
  apply (identity_statement_from_you_are (py "I am Voice AI.") [py "  "]
           [py "voice-first"] (py " You are a concise helper.  ")
           (py " a concise helper.")).
  - by repeat constructor.
  - reflexivity.
Defined.

(** X26: the test for "you are" ignores case and the replacement of
    "You are" does not.  A first answering line that starts with
    "you are" in some other case, and has "You are" nowhere, is returned
    as it stands, stripped, in the second person. *)
Theorem identity_statement_other_case
    (default_ : str) (before after : list str) (line : str) :
  Forall silent before ->
  strip line <> [] ->
  startswith (py "you are") (lower (strip line)) = true ->
  contains (py "You are") (strip line) = false ->
  get_identity_statement default_ (Some (before ++ line :: after))
  = strip line.
Proof.
  intros Hb Hne Hs Hc. unfold get_identity_statement.
  rewrite scan_lines_silent by done. cbn [scan_lines].
  destruct (strip line) as [|c s] eqn:E; [done|].
  rewrite Hs. rewrite replace_first_absent by done.
  rewrite <- E. destruct (strip_ends line). by rewrite strip_fixed.
Qed.

Lemma identity_statement_other_case_witness :
  App.get_identity_statement (py "I am Voice AI.")
    (Some [py "YOU ARE a helper"; py "You are kind"])
  = py "YOU ARE a helper".
Proof.
  apply (identity_statement_other_case (py "I am Voice AI.") []
           [py "You are kind"] (py "YOU ARE a helper")).
  - constructor.
  - discriminate.
  - reflexivity.
  - reflexivity.
Defined.

(** X27: [get_identity_statement] falls back on the default statement
    when the file is missing or unreadable and when no line of it
    answers; blank lines never answer. *)
Theorem identity_statement_default (default_ : str) (lines : list str) :
  get_identity_statement default_ None = default_
  /\ (Forall silent lines ->
      get_identity_statement default_ (Some lines) = default_)
  /\ (forall line, Forall (fun c => is_space c = true) line -> silent line).
Proof.
  split; [done|]. split.
  - intros H. unfold get_identity_statement.
    rewrite <- (app_nil_r lines). by rewrite scan_lines_silent.
  - intros line Hl. unfold silent. simpl.
    assert (lstrip line = []) as E.
    { induction Hl as [|c s Hc _ IH]; [done|]. simpl. by rewrite Hc. }
    unfold strip. by rewrite E.
Qed.

Lemma identity_statement_default_witness :
  App.get_identity_statement (py "I am Voice AI.")
    (Some [py "  "; py "Be brief."]) = py "I am Voice AI.".
Proof.
  apply (identity_statement_default (py "I am Voice AI.")
           [py "  "; py "Be brief."]).
  by repeat constructor.
Defined.

End AppFacts.

(** ** More on the rewriter *)

Section RewriteMore.
Import Rewrite.

Lemma lower_app (s t : str) : lower (s ++ t) = lower s ++ lower t.
Proof. apply map_app. Qed.

(** X28: [rewrite_query] is not idempotent.  A query that mentions one of
    the seven words still mentions it once the context marker is appended,
    so rewriting the result again, against the same history, appends the
    marker a second time. *)
Theorem rewrite_query_twice (query : str) (history : list str) (last_ : str) :
  last history = Some last_ -> has_pronoun query ->
  rewrite_query (rewrite_query query history) history
  = query ++ (py " (context: " ++ last_ ++ py ")")
          ++ (py " (context: " ++ last_ ++ py ")").
Proof.
  intros Hl Hp. rewrite (rewrite_query_hit query history last_) by done.
  rewrite (rewrite_query_hit _ history last_); [by rewrite <- !app_assoc|done|].
  destruct Hp as (p & Hp & Hs). exists p. split; [done|].
  rewrite lower_app. by apply substring_app_l.
Qed.

Lemma rewrite_query_twice_witness :
  Rewrite.rewrite_query
    (Rewrite.rewrite_query (py "is it red?") [py "a car"]) [py "a car"]
  = py "is it red? (context: a car) (context: a car)".
Proof.
  apply (rewrite_query_twice (py "is it red?") [py "a car"] (py "a car")).
  - reflexivity.
  - exists (py "it"). split; [unfold pronouns; simpl; left|].
    by exists (py "is "), (py " red?").
Defined.

End RewriteMore.
